(** * Shallow embedding of the ONNX frontend of TVM's Relay importer
    (python/tvm/relay/frontend/onnx.py): the versioned converter lookup,
    the [onnx_input] list wrapper, the Loop termination test, and
    [GraphProto.from_onnx] with the If converter, state passed explicitly;
    then the converter helpers (padding, layouts, kernel dimensions),
    [Slice._common], the pads of [Pad], [GraphProto.freeze] and
    [_parse_attr]. *)

From Stdlib Require Import String List ZArith Lia Bool.
Import ListNotations.
Open Scope Z_scope.

(** ** Python-level errors and results

    [OpNotImplemented names] carries the elements of the Python set joined
    into the message: its iteration order depends on the string hash seed,
    so only the names it contains, each once, are meaningful, not their
    order. [TVMError] is an error raised by TVM's C++ runtime. *)

Inductive PyError :=
| ValueError
| IndexError
| KeyError (k : string)
| TypeError
| AssertionError
| NotImplementedError
| OpNotImplemented (names : list string)
| ConversionRuleError
| TVMError
| OutOfFuel.

Inductive res (A : Type) :=
| Ok (a : A)
| Err (e : PyError).
Arguments Ok {A} a.
Arguments Err {A} e.

Definition rbind {A B} (m : res A) (k : A -> res B) : res B :=
  match m with Ok a => k a | Err e => Err e end.

Notation "'let!' x ':=' m 'in' k" := (rbind m (fun x => k))
  (at level 200, x name, m at level 100, right associativity).

(** Python list indexing [l[i]] for an integer [i]: negative indices count
    from the end, out of range raises IndexError. *)
Definition py_index {A} (l : list A) (i : Z) : res A :=
  let n := Z.of_nat (length l) in
  let j := if i <? 0 then n + i else i in
  if (j <? 0) || (n <=? j) then Err IndexError
  else match nth_error l (Z.to_nat j) with
       | Some a => Ok a
       | None => Err IndexError
       end.

Fixpoint map_res {A B} (f : A -> res B) (l : list A) : res (list B) :=
  match l with
  | [] => Ok []
  | x :: t => let! y := f x in let! ys := map_res f t in Ok (y :: ys)
  end.

(** ** OnnxOpConverter.get_converter *)
Module Converter.

(** [sorted(...)] on integers. *)
Fixpoint insert_Z (x : Z) (l : list Z) : list Z :=
  match l with
  | [] => [x]
  | y :: t => if x <=? y then x :: y :: t else y :: insert_Z x t
  end.

Definition sorted_Z (l : list Z) : list Z := fold_right insert_Z [] l.

(** [[i for i, v in enumerate(versions) if v == opset]] *)
Fixpoint indices_eq (opset : Z) (l : list Z) (i : Z) : list Z :=
  match l with
  | [] => []
  | v :: t => if v =? opset then i :: indices_eq opset t (i + 1)
              else indices_eq opset t (i + 1)
  end.

(** Python [max] of a list; [max([])] raises ValueError. *)
Definition py_max (l : list Z) : res Z :=
  match l with
  | [] => Err ValueError
  | x :: t => Ok (fold_left Z.max t x)
  end.

(** [impls] are the [N] of the [_impl_vN] methods of the class; the result
    is the [N] of the returned method.
<<
        versions = [int(d.replace("_impl_v", "")) for d in dir(cls) if "_impl_v" in d]
        versions = sorted(versions + [opset])
        version = versions[max([i for i, v in enumerate(versions) if v == opset]) - 1]
        if hasattr(cls, "_impl_v{}".format(version)):
            return getattr(cls, "_impl_v{}".format(version))
        raise NotImplementedError(...)
>> *)
Definition get_converter (impls : list Z) (opset : Z) : res Z :=
  let versions := sorted_Z (impls ++ [opset]) in
  let! m := py_max (indices_eq opset versions 0) in
  let! version := py_index versions (m - 1) in
  if existsb (Z.eqb version) impls then Ok version else Err NotImplementedError.

End Converter.

(** ** The [onnx_input] list wrapper *)
Module OnnxInput.

Inductive Key :=
| KInt (i : Z)
| KSlice (start stop step : option Z)
| KOther.

Inductive Item (A : Type) :=
| One (o : option A)
| Many (l : list (option A)).
Arguments One {A} o.
Arguments Many {A} l.

(** [list(range(k))] as integers [[a, a+1, ..., a+k-1]]. *)
Fixpoint zseq (a : Z) (k : nat) : list Z :=
  match k with O => [] | S k' => a :: zseq (a + 1) k' end.

(** The indices selected by [slice(start, stop, step)] on a sequence of
    length [n] ([slice.indices(n)] followed by the range it denotes). *)
Definition slice_indices (n : Z) (start stop step : option Z) : res (list Z) :=
  let st := match step with Some s => s | None => 1 end in
  if st =? 0 then Err ValueError
  else if 0 <? st then
    let clamp x := if x <? 0 then Z.max (x + n) 0 else Z.min x n in
    let a := match start with Some x => clamp x | None => 0 end in
    let b := match stop with Some x => clamp x | None => n end in
    let cnt := if a <? b then (b - a + st - 1) / st else 0 in
    Ok (map (fun k => a + k * st) (zseq 0 (Z.to_nat cnt)))
  else
    let clamp x := if x <? 0 then Z.max (x + n) (-1) else Z.min x (n - 1) in
    let a := match start with Some x => clamp x | None => n - 1 end in
    let b := match stop with Some x => clamp x | None => -1 end in
    let cnt := if b <? a then (a - b + (- st) - 1) / (- st) else 0 in
    Ok (map (fun k => a + k * st) (zseq 0 (Z.to_nat cnt))).

(** [self[i]] for an integer [i]:
    [list(self)[item] if item < len(self) else None]. *)
Definition getitem_int {A} (l : list A) (i : Z) : res (option A) :=
  if i <? Z.of_nat (length l) then
    let! a := py_index l i in Ok (Some a)
  else Ok None.

(** [onnx_input.__getitem__] *)
Definition getitem {A} (l : list A) (item : Key) : res (Item A) :=
  match item with
  | KSlice start stop step =>
      let stop' := match stop with None => Z.of_nat (length l) | Some s => s end in
      (* list(range(stop)[item]) *)
      let! indices := slice_indices (Z.max stop' 0) start stop step in
      let! xs := map_res (getitem_int l) indices in
      Ok (Many xs)
  | KInt i => let! o := getitem_int l i in Ok (One o)
  | KOther => Err TypeError
  end.

End OnnxInput.

(** ** GraphProto._fix_outputs *)
Definition removelast_py {A} (l : list A) : list A := firstn (length l - 1) l.

Definition fix_outputs (op_name : string) (outputs : list string) : list string :=
  if String.eqb op_name "Dropout" then
    if Nat.eqb (length outputs) 1 then outputs
    else removelast_py outputs        (* outputs[:-1] *)
  else outputs.

(** ** Relay expressions

    A Relay variable is an object with a name hint; two variables are the
    same object iff they carry the same [vid] (allocated fresh by [new_var]).
    Tensors are kept as their flat data; types and shapes are abstracted. *)
Record Var := mkVar { vname : string; vid : nat }.

Definition Tensor := list Z.

Local Set Warnings "-register-all".
Inductive Expr :=
| EVar (v : Var)
| EConst (t : Tensor)
| ECall (op : string) (args : list Expr)
| ETuple (fields : list Expr)
| EGetItem (e : Expr) (i : nat)
| EIf (c t f : Expr).

Definition var_eqb (v w : Var) : bool :=
  Nat.eqb (vid v) (vid w) && String.eqb (vname v) (vname w).

(** Variables in left-to-right traversal order. *)
Fixpoint vars_of (e : Expr) : list Var :=
  match e with
  | EVar v => [v]
  | EConst _ => []
  | ECall _ args => flat_map vars_of args
  | ETuple fs => flat_map vars_of fs
  | EGetItem e _ => vars_of e
  | EIf c t f => vars_of c ++ vars_of t ++ vars_of f
  end.

Fixpoint dedup_vars (seen : list Var) (l : list Var) : list Var :=
  match l with
  | [] => []
  | v :: t => if existsb (var_eqb v) seen then dedup_vars seen t
              else v :: dedup_vars (v :: seen) t
  end.

(** [relay.analysis.free_vars]: none of the constructs above binds a
    variable, so the free variables are all variables, each listed once. *)
Definition free_vars (e : Expr) : list Var := dedup_vars [] (vars_of e).

(** ** Loop._impl_v11: the termination test [cond_fn]

    [max_loop_count = inputs[0]], [cond = inputs[1]] ([None] when absent);
    [loop_inputs] are the loop variables
    [(iter_count, max_count, condition, loop_deps..., scans...)].
    The boolean constant [True] is the tensor [[1]]. *)
Module LoopCond.

Definition is_some {A} (o : option A) : bool :=
  match o with Some _ => true | None => false end.

(** [infer_type(e)] (relay/frontend/common.py) starts with
    [IRModule.from_expr(e)]; for [None] the C++ side visits a null node and
    raises TVMError. A present input is a well-typed expression here. *)
Definition infer_type (o : option Expr) : res Expr :=
  match o with Some e => Ok e | None => Err TVMError end.

(** The closure [cond_fn], applied to the loop variables. *)
Definition cond_fn (max_loop_count cond : option Expr) (loop_inputs : list Expr)
  : res Expr :=
  let is_for_loop := is_some max_loop_count && negb (is_some cond) in
  let is_condition_for_loop := is_some cond && is_some max_loop_count in
  let! i := py_index loop_inputs 0 in
  let! max_count := py_index loop_inputs 1 in
  let! w := py_index loop_inputs 2 in
  let out_while := ECall "equal" [w; EConst [1]] in
  let out_loop := ECall "less" [i; max_count] in
  if is_condition_for_loop then Ok (ECall "logical_and" [out_while; out_loop])
  else if is_for_loop then Ok out_loop
  else Ok out_while.

(** The steps of [_impl_v11] up to the construction of the loop variables,
    then the test the loop is built with:
    [iter_dtype = infer_type(max_loop_count).checked_type.dtype], the
    assertion, and [get_var(body.input[1].name, cond)], which calls
    [infer_type(cond)]. *)
Definition loop_test (max_loop_count cond : option Expr) (loop_inputs : list Expr)
  : res Expr :=
  let! _ := infer_type max_loop_count in
  if negb (is_some cond || is_some max_loop_count) then Err AssertionError else
  let! _ := infer_type cond in
  cond_fn max_loop_count cond loop_inputs.

(** Scalar semantics of the three Relay operators used by [cond_fn]
    ([equal], [less], [logical_and]); booleans are 0/1. *)
Fixpoint eval (env : Var -> option Z) (e : Expr) : option Z :=
  match e with
  | EVar v => env v
  | EConst [z] => Some z
  | ECall "equal" [a; b] =>
      match eval env a, eval env b with
      | Some x, Some y => Some (Z.b2z (x =? y)) | _, _ => None end
  | ECall "less" [a; b] =>
      match eval env a, eval env b with
      | Some x, Some y => Some (Z.b2z (x <? y)) | _, _ => None end
  | ECall "logical_and" [a; b] =>
      match eval env a, eval env b with
      | Some x, Some y => Some (Z.b2z (negb (x =? 0) && negb (y =? 0)))
      | _, _ => None end
  | _ => None
  end.

End LoopCond.

(** ** Python dicts (insertion ordered, unique keys) *)
Module Dict.

Definition t (A : Type) := list (string * A).

Definition get {A} (d : t A) (k : string) : option A :=
  match find (fun p => String.eqb (fst p) k) d with
  | Some p => Some (snd p) | None => None end.

Definition mem {A} (d : t A) (k : string) : bool :=
  existsb (fun p => String.eqb (fst p) k) d.

(** [d[k] = v]: an existing key keeps its position. *)
Definition set {A} (d : t A) (k : string) (v : A) : t A :=
  if mem d k then map (fun p => if String.eqb (fst p) k then (k, v) else p) d
  else d ++ [(k, v)].

Definition del {A} (d : t A) (k : string) : t A :=
  filter (fun p => negb (String.eqb (fst p) k)) d.

(** [d.update(other)] *)
Definition update {A} (d : t A) (other : t A) : t A :=
  fold_left (fun acc p => set acc (fst p) (snd p)) other d.

Definition keys {A} (d : t A) : list string := map fst d.
Definition values {A} (d : t A) : list A := map snd d.

End Dict.

(** ** The serialized graph *)

(** An initializer [TensorProto]: its name and its contents, which
    [_parse_array] turns into an array. *)
Record Init := mkInit { init_name : string; init_data : Tensor }.

Inductive Graph :=
| mkGraph (initializer : list Init) (input : list string)
          (node : list Node) (output : list string)
with Node :=
| mkNode (op_type : string) (n_input : list string)
         (n_output : list string) (attribute : list (string * Attr))
with Attr :=
| AInt (i : Z)
| AInts (l : list Z)
| AStr (s : string)
| ATensor (t : Tensor)
| AGraph (g : Graph).

Definition initializer (g : Graph) := let '(mkGraph x _ _ _) := g in x.
Definition input (g : Graph) := let '(mkGraph _ x _ _) := g in x.
Definition node (g : Graph) := let '(mkGraph _ _ x _) := g in x.
Definition output (g : Graph) := let '(mkGraph _ _ _ x) := g in x.
Definition op_type (n : Node) := let '(mkNode x _ _ _) := n in x.
Definition n_input (n : Node) := let '(mkNode _ x _ _) := n in x.
Definition n_output (n : Node) := let '(mkNode _ _ x _) := n in x.
Definition attribute (n : Node) := let '(mkNode _ _ _ x) := n in x.

(** Keys of [_get_convert_map(opset)] (the same for every opset). *)
Definition convert_map_keys : list string :=
  (["Identity"; "Affine"; "BitShift"; "ThresholdedRelu"; "ScaledTanh"; "ParametricSoftplus"; "Constant"; "ConstantOfShape"; "FC"; "Scale"; "Upsample"; "SpatialBN"; "Add"; "Sub"; "Mul"; "Div"; "Neg"; "Abs"; "Reciprocal"; "Floor"; "Ceil"; "Round"; "IsInf"; "IsNaN"; "Sqrt"; "Relu"; "Celu"; "LeakyRelu"; "Selu"; "Elu"; "Exp"; "Greater"; "GreaterOrEqual"; "Less"; "LessOrEqual"; "Log"; "Acos"; "Acosh"; "Asin"; "Asinh"; "Atan"; "Atanh"; "Cos"; "Cosh"; "Sin"; "Sinh"; "Tan"; "Tanh"; "Pow"; "PRelu"; "Sigmoid"; "HardSigmoid"; "Max"; "Min"; "Sum"; "Mean"; "Clip"; "Softplus"; "Softmax"; "LogSoftmax"; "OneHot"; "Hardmax"; "Shrink"; "Softsign"; "Gemm"; "MatMul"; "Mod"; "Xor"; "AveragePool"; "LpPool"; "GlobalLpPool"; "MaxPool"; "MaxUnpool"; "Conv"; "ConvTranspose"; "GlobalAveragePool"; "GlobalMaxPool"; "BatchNormalization"; "InstanceNormalization"; "Dropout"; "Flatten"; "LRN"; "LSTM"; "GRU"; "MaxRoiPool"; "RoiAlign"; "NonMaxSuppression"; "ReduceMax"; "ReduceMin"; "ReduceSum"; "ReduceMean"; "ReduceProd"; "ReduceLogSumExp"; "ReduceLogSum"; "ReduceSumSquare"; "ReduceL1"; "ReduceL2"; "ArgMax"; "ArgMin"; "TopK"; "Cast"; "Reshape"; "Expand"; "Concat"; "Split"; "Slice"; "Transpose"; "DepthToSpace"; "SpaceToDepth"; "Gather"; "GatherElements"; "GatherND"; "Compress"; "Size"; "Scatter"; "ScatterElements"; "ScatterND"; "EyeLike"; "Squeeze"; "Unsqueeze"; "Pad"; "Shape"; "Sign"; "Equal"; "Not"; "And"; "Tile"; "Erf"; "Where"; "Or"; "Resize"; "NonZero"; "Range"; "CumSum"; "Unique"; "Einsum"; "Loop"; "If"; "ATen"; "QuantizeLinear"; "DequantizeLinear"; "DynamicQuantizeLinear"; "ReverseSequence"; "QLinearConv"; "QLinearConcat"; "QLinearAdd"; "QLinearMatMul"; "QLinearMul"; "QLinearSigmoid"; "ConvInteger"; "QLinearAveragePool"; "QLinearGlobalAveragePool"; "QLinearLeakyRelu"; "RandomUniform"; "RandomNormal"; "RandomNormalLike"; "NegativeLogLikelihoodLoss"; "SoftmaxCrossEntropyLoss"; "Adagrad"; "Adam"; "Momentum"]%string).

Definition in_convert_map (op : string) : bool :=
  existsb (String.eqb op) convert_map_keys.

Definition identity_list : list string := [].

(** What a converter returns: an expression, or a [TupleWrapper(e, n)]. *)
Inductive COut :=
| Single (e : Expr)
| TW (e : Expr) (n : nat).

Definition astuple (o : COut) : Expr := match o with Single e => e | TW e _ => e end.

(** [op[i]]: [TupleWrapper.__getitem__] is [TupleGetItem(tuple_value, i)]. *)
Definition tw_item (o : COut) (i : nat) : res Expr :=
  match o with
  | TW e n => if Nat.ltb i n then Ok (EGetItem e i) else Err IndexError
  | Single e => Ok (EGetItem e i)
  end.

(** ** The fresh-variable counter and the import monad *)
Definition M (A : Type) := nat -> res (A * nat).
Definition mret {A} (a : A) : M A := fun n => Ok (a, n).
Definition mbind {A B} (m : M A) (k : A -> M B) : M B :=
  fun n => match m n with Ok (a, n') => k a n' | Err e => Err e end.
Definition lift {A} (r : res A) : M A :=
  fun n => match r with Ok a => Ok (a, n) | Err e => Err e end.
Definition mfail {A} (e : PyError) : M A := fun _ => Err e.

Notation "x <- m ;; k" := (mbind m (fun x => k))
  (at level 61, m at next level, right associativity).

(** [new_var(name, ...)]: a fresh Relay variable. *)
Definition new_var (name : string) : M Expr :=
  fun n => Ok (EVar (mkVar name n), S n).

Fixpoint mfold {A B} (f : A -> B -> M A) (l : list B) (a : A) : M A :=
  match l with
  | [] => mret a
  | x :: t => a' <- f a x ;; mfold f t a'
  end.

(** ** GraphProto instances

    [gp_shape] holds the keys of the user's shape dict (the shapes
    themselves only annotate variable types); [gp_top] is
    [self._old_manager is None], set when the instance is entered. *)
Record GP := mkGP {
  gp_nodes : Dict.t Expr;
  gp_params : Dict.t Tensor;
  gp_inputs : Dict.t Expr;
  gp_renames : Dict.t string;
  gp_num_input : nat;
  gp_num_param : nat;
  gp_shape : list string;
  gp_input_names : list string;
  gp_freeze : bool;
  gp_opset : Z;
  gp_top : bool
}.

(** [GraphProto(shape, dtype, freeze_params)] entered with [with]. *)
Definition new_gp (shape : list string) (freeze : bool) (top : bool) : GP :=
  mkGP [] [] [] [] 0 0 shape [] freeze 0 top.

Definition set_nodes (s : GP) (d : Dict.t Expr) : GP :=
  mkGP d (gp_params s) (gp_inputs s) (gp_renames s) (gp_num_input s)
       (gp_num_param s) (gp_shape s) (gp_input_names s) (gp_freeze s)
       (gp_opset s) (gp_top s).
Definition set_params (s : GP) (d : Dict.t Tensor) : GP :=
  mkGP (gp_nodes s) d (gp_inputs s) (gp_renames s) (gp_num_input s)
       (gp_num_param s) (gp_shape s) (gp_input_names s) (gp_freeze s)
       (gp_opset s) (gp_top s).
Definition set_inputs (s : GP) (d : Dict.t Expr) : GP :=
  mkGP (gp_nodes s) (gp_params s) d (gp_renames s) (gp_num_input s)
       (gp_num_param s) (gp_shape s) (gp_input_names s) (gp_freeze s)
       (gp_opset s) (gp_top s).
Definition set_opset (s : GP) (o : Z) : GP :=
  mkGP (gp_nodes s) (gp_params s) (gp_inputs s) (gp_renames s) (gp_num_input s)
       (gp_num_param s) (gp_shape s) (gp_input_names s) (gp_freeze s)
       o (gp_top s).
Definition bump_param (s : GP) : GP :=
  mkGP (gp_nodes s) (gp_params s) (gp_inputs s) (gp_renames s) (gp_num_input s)
       (S (gp_num_param s)) (gp_shape s) (gp_input_names s) (gp_freeze s)
       (gp_opset s) (gp_top s).
Definition add_input_name (s : GP) (i : string) : GP :=
  mkGP (gp_nodes s) (gp_params s) (gp_inputs s) (gp_renames s)
       (S (gp_num_input s)) (gp_num_param s) (gp_shape s)
       (gp_input_names s ++ [i]) (gp_freeze s) (gp_opset s) (gp_top s).

Fixpoint list_set {A} (l : list A) (i : nat) (x : A) : list A :=
  match l, i with
  | [], _ => []
  | _ :: t, O => x :: t
  | y :: t, S j => y :: list_set t j x
  end.

(** What [from_onnx] returns: the output expression ([get_output_expr]), or
    the function (parameters, body) with the params dict. *)
Inductive FResult :=
| RExpr (e : Expr)
| RModule (fparams : list Expr) (body : Expr) (residual : Dict.t Tensor).

(** [_parse_attr]: empty repeated fields are not set and leave the
    attribute unparsable; repeated fields may not override an earlier one. *)
Definition parse_attr_one (attrs : Dict.t Attr) (a : string * Attr) : res (Dict.t Attr) :=
  let '(name, v) := a in
  match v with
  | AInts [] => if Dict.mem attrs name then Ok attrs else Err ValueError
  | AInts _ => if Dict.mem attrs name then Err AssertionError else Ok (Dict.set attrs name v)
  | _ => Ok (Dict.set attrs name v)
  end.

Fixpoint parse_attr_aux (attrs : Dict.t Attr) (l : list (string * Attr)) : res (Dict.t Attr) :=
  match l with
  | [] => Ok attrs
  | a :: t => let! attrs' := parse_attr_one attrs a in parse_attr_aux attrs' t
  end.

Definition parse_attr (l : list (string * Attr)) : res (Dict.t Attr) := parse_attr_aux [] l.

(** [if not init_tensor.name.strip()]. Names are sequences of code points
    below 256; among them [str.strip] removes 9-13, 28-31, 32, 133 and 160
    (the characters for which [str.isspace] holds). *)
Definition is_space (c : Ascii.ascii) : bool :=
  match Ascii.nat_of_ascii c with
  | 9 | 10 | 11 | 12 | 13 | 28 | 29 | 30 | 31 | 32 | 133 | 160 => true
  | _ => false
  end%nat.
Definition is_blank (s : string) : bool := forallb is_space (list_ascii_of_string s).

(** The set [unsupported_ops] of the node loop, as a duplicate-free list
    (first-seen order, which is not the order of the Python set). *)
Definition unsupported_step (acc : list string) (nd : Node) : list string :=
  let op_name := op_type nd in
  if negb (in_convert_map op_name) && negb (String.eqb op_name "Constant")
     && negb (existsb (String.eqb op_name) identity_list)
     && negb (existsb (String.eqb op_name) acc)
  then acc ++ [op_name] else acc.

Definition unsupported_ops (nodes : list Node) : list string :=
  fold_left unsupported_step nodes [].

(** Body of the initializer loop of [from_onnx]; [parse_array] is
    [self._parse_array]. *)
Definition reg_init (parse_array : Init -> res Tensor) (self : GP) (it : Init) : M GP :=
  if is_blank (init_name it) then mfail ValueError
  else
    array <- lift (parse_array it) ;;
    if gp_freeze self then
      mret (set_nodes self (Dict.set (gp_nodes self) (init_name it) (EConst array)))
    else
      let self := set_params self (Dict.set (gp_params self) (init_name it) array) in
      v <- new_var (init_name it) ;;
      mret (set_nodes self (Dict.set (gp_nodes self) (init_name it) v)).

(** Body of the [graph.input] loop of [from_onnx]. Shapes, dtypes and the
    unknown-dimension warning only affect variable types. *)
Definition reg_input (self : GP) (i_name : string) : M GP :=
  match Dict.get (gp_params self) i_name with
  | Some arr =>
      (* self._params[i_name] = self._params.pop(i_name) *)
      let self := bump_param self in
      let self := set_params self (Dict.set (Dict.del (gp_params self) i_name) i_name arr) in
      v <- new_var i_name ;;
      let self := set_nodes self (Dict.set (gp_nodes self) i_name v) in
      mret (set_inputs self (Dict.set (gp_inputs self) i_name v))
  | None =>
      if Dict.mem (gp_nodes self) i_name then mret self     (* continue *)
      else
        let self := add_input_name self i_name in
        v <- new_var i_name ;;
        let self := set_nodes self (Dict.set (gp_nodes self) i_name v) in
        mret (set_inputs self (Dict.set (gp_inputs self) i_name v))
  end.

(** The optional-output block ([if outputs_num > 1:]) of the node loop:
    returns the new [op], [outputs_num] and [node_output]. *)
Fixpoint mark_valid (valid : list bool) (outs : list string) (i : nat) : res (list bool) :=
  match outs with
  | [] => Ok valid
  | o :: t =>
      if String.eqb o "" then mark_valid valid t (S i)
      else if Nat.ltb i (length valid) then mark_valid (list_set valid i true) t (S i)
      else Err IndexError          (* valid_outputs[i] = True out of range *)
  end.

Fixpoint select_valid (f : nat -> res Expr) (valid : list bool) (i : nat) : res (list Expr) :=
  match valid with
  | [] => Ok []
  | b :: t =>
      let! rest := select_valid f t (S i) in
      if b then let! x := f i in Ok (x :: rest) else Ok rest
  end.

Definition nonempty (s : string) : bool := negb (String.eqb s "").

Definition reconcile (op : COut) (outputs_num : nat) (node_output : list string)
  : res (COut * nat * list string) :=
  let! valid := mark_valid (repeat false outputs_num) node_output 0 in
  if forallb (fun b => b) valid then Ok (op, outputs_num, node_output)
  else
    let! outputs :=
      match astuple op with
      | ETuple fields =>
          select_valid (fun i => match nth_error fields i with
                                 | Some x => Ok x | None => Err IndexError end) valid 0
      | _ => select_valid (tw_item op) valid 0
      end in
    let n := length outputs in
    let op' := match outputs with
               | [x] => Single x
               | _ => if Nat.eqb n outputs_num then op else TW (ETuple outputs) n
               end in
    Ok (op', n, filter nonempty node_output).

(** Binding the surviving outputs to their names. *)
Fixpoint bind_items (nodes : Dict.t Expr) (op : COut) (names : list string) (i : nat)
  : res (Dict.t Expr) :=
  match names with
  | [] => Ok nodes
  | k :: t => let! e := tw_item op i in bind_items (Dict.set nodes k e) op t (S i)
  end.

Definition bind_outputs (nodes : Dict.t Expr) (op : COut) (outputs_num : nat)
  (node_output : list string) : res (Dict.t Expr) :=
  if Nat.eqb outputs_num 1 then
    let! k := py_index node_output 0 in Ok (Dict.set nodes k (astuple op))
  else bind_items nodes op node_output 0.

(** [nodes = {v: k for k, v in self._nodes.items()}; nodes[var]]: the last
    name bound to the variable object. *)
Definition inv_lookup (d : Dict.t Expr) (v : Var) : option string :=
  fold_left (fun acc p => match snd p with
                          | EVar w => if var_eqb w v then Some (fst p) else acc
                          | _ => acc end) d None.

(** The end of [from_onnx] when [get_output_expr] is false. *)
Definition assemble (self : GP) (outputs : Expr) : res (GP * FResult) :=
  let! names := map_res (fun v => match inv_lookup (gp_nodes self) v with
                                  | Some k => Ok k | None => Err (KeyError (vname v)) end)
                        (free_vars outputs) in
  let! inputs :=
    fold_left (fun acc i_name =>
        let! inputs := acc in
        if existsb (String.eqb i_name) names && negb (Dict.mem inputs i_name) then
          match Dict.get (gp_nodes self) i_name with
          | Some e => Ok (Dict.set inputs i_name e)
          | None => Err (KeyError i_name)
          end
        else Ok inputs) (Dict.keys (gp_params self)) (Ok (gp_inputs self)) in
  Ok (set_inputs self inputs, RModule (Dict.values inputs) outputs (gp_params self)).

(** [self._nodes[name]] for the graph outputs. *)
Definition lookup_node (self : GP) (name : string) : res Expr :=
  match Dict.get (gp_nodes self) name with Some e => Ok e | None => Err (KeyError name) end.

(** The free variables of a branch re-bound by name in the parent. *)
Definition promote (d : Dict.t Expr) (fvs : list Var) : Dict.t Expr :=
  fold_left (fun d v => Dict.set d (vname v) (EVar v)) fvs d.

(** ** The importer *)
Section Importer.

(** [convert_map[op_name](inputs, attr, self._params)] for every operator
    other than If; the last argument is [attr["tvm_custom"]["num_outputs"]]. *)
Variable convert : string -> list (option Expr) -> Dict.t Attr -> Dict.t Tensor -> nat -> res COut.
(** [relay.transform.fold_constant] on an expression. *)
Variable fold_constant : Expr -> Expr.
(** [len(infer_shape(e))] *)
Variable infer_rank : Expr -> nat.
(** [_parse_array(tensor_proto)]: onnx's [numpy_helper.to_array], which
    raises for instance TypeError on an undefined data type, then a reshape
    to the proto's dims, which raises ValueError when they do not match;
    both live outside this repository. *)
Variable parse_array : Init -> res Tensor.

(** [If._impl_v1]; [graph_scope] is [GraphProto.current], the instance
    converting the enclosing graph, and [sub] converts a subgraph with
    [get_output_expr=True] in the given instance. *)
Definition If_impl (sub : GP -> Graph -> M (GP * Expr)) (graph_scope : GP)
  (inputs : list (option Expr)) (attr : Dict.t Attr) : M (GP * COut) :=
  c <- lift (OnnxInput.getitem_int inputs 0) ;;
  match c with
  | None | Some None => mfail TypeError          (* infer_shape(None) *)
  | Some (Some c0) =>
  let cond := if Nat.ltb 0 (infer_rank c0) then ECall "take" [c0; EConst [0]] else c0 in
  match Dict.get attr "then_branch", Dict.get attr "else_branch" with
  | None, _ | _, None => mfail AssertionError
  | Some (AGraph then_branch), Some (AGraph else_branch) =>
      let then_graph := set_nodes (new_gp (gp_shape graph_scope) (gp_freeze graph_scope) false)
                                  (gp_nodes graph_scope) in
      let else_graph := set_nodes (new_gp (gp_shape graph_scope) (gp_freeze graph_scope) false)
                                  (gp_nodes graph_scope) in
      r1 <- sub then_graph then_branch ;;
      let '(then_graph, then_expr) := r1 in
      r2 <- sub else_graph else_branch ;;
      let '(else_graph, else_expr) := r2 in
      let gs := set_params graph_scope (Dict.update (gp_params graph_scope) (gp_params then_graph)) in
      let gs := set_nodes gs (Dict.update (gp_nodes gs) (gp_nodes then_graph)) in
      let gs := set_nodes gs (promote (gp_nodes gs) (free_vars then_expr)) in
      let gs := set_params gs (Dict.update (gp_params gs) (gp_params else_graph)) in
      let gs := set_nodes gs (Dict.update (gp_nodes gs) (gp_nodes else_graph)) in
      let gs := set_nodes gs (promote (gp_nodes gs) (free_vars else_expr)) in
      let ret := EIf cond then_expr else_expr in
      let n := length (output then_branch) in
      mret (gs, if Nat.ltb 1 n then TW ret n else Single ret)
  | Some _, Some _ => mfail TypeError
  end
  end.

(** [_convert_operator] *)
Definition convert_operator (sub : GP -> Graph -> M (GP * Expr)) (self : GP)
  (op_name : string) (inputs : list (option Expr)) (attrs : Dict.t Attr)
  (num_outputs : nat) : M (GP * COut) :=
  if existsb (String.eqb op_name) identity_list then
    o <- lift (convert op_name inputs attrs (gp_params self) num_outputs) ;; mret (self, o)
  else if in_convert_map op_name then
    if String.eqb op_name "If" then If_impl sub self inputs attrs
    else (o <- lift (convert op_name inputs attrs (gp_params self) num_outputs) ;; mret (self, o))
  else mfail NotImplementedError.

(** One iteration of the node loop of [from_onnx]. *)
Definition node_step (sub : GP -> Graph -> M (GP * Expr)) (self : GP) (nd : Node) : M GP :=
  let op_name := op_type nd in
  attr <- lift (parse_attr (attribute nd)) ;;
  inputs <- lift (map_res (fun i =>
                    if String.eqb i "" then Ok None
                    else let i' := match Dict.get (gp_renames self) i with
                                   | Some j => j | None => i end in
                         match Dict.get (gp_nodes self) i' with
                         | Some e => Ok (Some e) | None => Err (KeyError i') end)
                   (n_input nd)) ;;
  let node_output := fix_outputs op_name (n_output nd) in
  r <- convert_operator sub self op_name inputs attr (length node_output) ;;
  let '(self, op) := r in
  let outputs_num := match op with Single _ => 1%nat | TW _ n => n end in
  op <- lift (if Nat.eqb outputs_num 1 then
                match op with
                | Single e => Ok (Single (fold_constant e))
                | TW _ _ => Err TypeError       (* fold_constant(TupleWrapper) *)
                end
              else Ok (TW (fold_constant (astuple op)) outputs_num)) ;;
  r2 <- lift (if Nat.ltb 1 outputs_num then reconcile op outputs_num node_output
              else Ok (op, outputs_num, node_output)) ;;
  let '(op, outputs_num, node_output) := r2 in
  if negb (Nat.eqb (length node_output) outputs_num) then mfail AssertionError
  else
    nodes <- lift (bind_outputs (gp_nodes self) op outputs_num node_output) ;;
    mret (set_nodes self nodes).

(** [GraphProto.from_onnx(graph, opset, get_output_expr)]; [fuel] bounds
    the nesting depth of subgraphs. *)
Fixpoint from_onnx (fuel : nat) (self : GP) (g : Graph) (opset : Z)
  (get_output_expr : bool) : M (GP * FResult) :=
  match fuel with
  | O => mfail OutOfFuel
  | S fuel' =>
    let sub := fun s gr =>
      r <- from_onnx fuel' s gr opset true ;;
      match r with
      | (s', RExpr e) => mret (s', e)
      | _ => mfail TypeError
      end in
    let self := set_opset self opset in
    self <- mfold (reg_init parse_array) (initializer g) self ;;
    self <- mfold reg_input (input g) self ;;
    if gp_top self &&
       negb (forallb (fun k => existsb (String.eqb k) (gp_input_names self)) (gp_shape self))
    then mfail AssertionError
    else
    let unsupported := unsupported_ops (node g) in
    match unsupported with
    | _ :: _ => mfail (OpNotImplemented unsupported)
    | [] =>
      self <- mfold (node_step sub) (node g) self ;;
      outs <- lift (map_res (lookup_node self) (output g)) ;;
      let outputs := match outs with [o] => o | _ => ETuple outs end in
      if get_output_expr then mret (self, RExpr outputs)
      else lift (assemble self outputs)
    end
  end.

(** The module-level [from_onnx(model, shape, dtype, opset, freeze_params)]:
    a fresh instance used as the current scope. *)
Definition from_onnx_model (fuel : nat) (shape : list string) (freeze : bool)
  (opset : Z) (g : Graph) : res FResult :=
  match from_onnx fuel (new_gp shape freeze true) g opset false 0%nat with
  | Ok ((_, r), _) => Ok r
  | Err e => Err e
  end.

End Importer.

(** ** A concrete instance of the converters

    [Max._impl_v1] on a single input returns that input itself; every other
    operator is represented by one opaque call node. Constant folding
    leaves expressions over variables unchanged; all values are scalars. *)
Definition some_args (inputs : list (option Expr)) : list Expr :=
  flat_map (fun o => match o with Some e => [e] | None => [] end) inputs.

Definition demo_convert (op : string) (inputs : list (option Expr)) (attr : Dict.t Attr)
  (params : Dict.t Tensor) (num_outputs : nat) : res COut :=
  if String.eqb op "Max" then
    match inputs with
    | [Some x] => Ok (Single x)
    | _ => Ok (Single (ECall "maximum" (some_args inputs)))
    end
  else Ok (Single (ECall op (some_args inputs))).

Definition demo_fold (e : Expr) : Expr := e.
Definition demo_rank (e : Expr) : nat := 0.
(** Every initializer's contents parse as they are. *)
Definition demo_parse (it : Init) : res Tensor := Ok (init_data it).

Definition demo_import := from_onnx_model demo_convert demo_fold demo_rank demo_parse.

(** The subgraph converter [from_onnx] passes to If, for the instance above. *)
Definition demo_sub (fuel : nat) (s : GP) (gr : Graph) : M (GP * Expr) :=
  r <- from_onnx demo_convert demo_fold demo_rank demo_parse fuel s gr 13 true ;;
  match r with
  | (s', RExpr e) => mret (s', e)
  | _ => mfail TypeError
  end.

(** Some graphs. *)
Local Open Scope string_scope.



(** An If whose then branch binds [t], and a later node reading [t]. *)
Definition then_leak : Graph := mkGraph [] [] [mkNode "Relu" ["c"] ["t"] []] ["t"].
Definition else_leak : Graph := mkGraph [] [] [mkNode "Neg" ["c"] ["e"] []] ["e"].
Definition g_leak : Graph :=
  mkGraph [] ["c"]
    [mkNode "If" ["c"] ["r"] [("then_branch", AGraph then_leak); ("else_branch", AGraph else_leak)];
     mkNode "Add" ["r"; "t"] ["z"] []] ["z"].


(** The scope and node inputs of the If of [g_leak] when it is converted. *)
Definition leak_scope : GP :=
  set_nodes (set_opset (new_gp [] false true) 13) [("c", EVar (mkVar "c" 0))].
Definition leak_attr : Dict.t Attr :=
  [("then_branch", AGraph then_leak); ("else_branch", AGraph else_leak)].

Local Close Scope string_scope.

(** ** Reading aids for the statements below *)



(** Comparisons with a fixed opset, as filters over version lists. *)
Definition ltr (r x : Z) := x <? r.
Definition eqr (r x : Z) := x =? r.
Definition gtr (r x : Z) := r <? x.

(** A loop environment: iteration 2 of at most 5, condition true. *)
Definition loop_env (v : Var) : option Z :=
  match vid v with 0%nat => Some 2 | 1%nat => Some 5 | 2%nat => Some 1 | _ => None end.



(** Python slicing [xs[start:stop:step]] of a list. *)
Definition py_slice {A} (xs : list A) (start stop step : option Z) : res (list A) :=
  let! idx := OnnxInput.slice_indices (Z.of_nat (length xs)) start stop step in
  map_res (py_index xs) idx.




(** * Helpers of the converters *)

(** The errors the helpers raise besides the ones of [PyError]. *)
Inductive HelperError :=
| ZeroDivisionError
| OpAttributeInvalid
| Py (e : PyError).

Inductive hres (A : Type) :=
| HOk (a : A)
| HErr (e : HelperError).
Arguments HOk {A} a.
Arguments HErr {A} e.

Definition hlift {A} (r : res A) : hres A :=
  match r with Ok a => HOk a | Err e => HErr (Py e) end.

(** Python's [sub in s] on strings. *)
Fixpoint str_contains (sub s : string) : bool :=
  match s with
  | EmptyString => String.eqb sub EmptyString
  | String _ t => String.prefix sub s || str_contains sub t
  end.

(** [get_pad_pair(input1d, kernel1d, stride1d, mode)]; [%] and [//] are
    Python's floor operations, [Z.modulo] and [Z.div]. *)
Definition get_pad_pair (input1d kernel1d stride1d : Z) (mode : string) : hres (list Z) :=
  if stride1d =? 0 then HErr ZeroDivisionError
  else
    let pad := if input1d mod stride1d =? 0 then Z.max (kernel1d - stride1d) 0
               else Z.max (kernel1d - input1d mod stride1d) 0 in
    let pad_before := pad / 2 in
    let pad_after := pad - pad_before in
    if str_contains "LOWER" mode then HOk [pad_after; pad_before]
    else HOk [pad_before; pad_after].

(** The loop [for axis in range(len(input_shape) - 2)] of
    [Pool._run_calculation] for [avg_pool] with [auto_pad] SAME_UPPER or
    SAME_LOWER; [strides] and [kernel_shape] are the attribute values. *)
Fixpoint pads_loop (input_shape strides kernel_shape : list Z) (mode : string)
  (axes : list nat) : hres (list (list Z)) :=
  match axes with
  | [] => HOk []
  | axis :: t =>
      match hlift (py_index input_shape (2 + Z.of_nat axis)) with
      | HErr e => HErr e
      | HOk axis_shape =>
      match hlift (py_index strides (Z.of_nat axis)) with
      | HErr e => HErr e
      | HOk stride =>
      match hlift (py_index kernel_shape (Z.of_nat axis)) with
      | HErr e => HErr e
      | HOk kernel =>
      match get_pad_pair axis_shape kernel stride mode with
      | HErr e => HErr e
      | HOk pad =>
      match pads_loop input_shape strides kernel_shape mode t with
      | HErr e => HErr e
      | HOk rest => HOk (pad :: rest)
      end end end end end
  end.

(** [[val for pair in zip( *pad_tuple) for val in pair]] *)
Definition zip_flatten (pads : list (list Z)) : list Z :=
  match pads with
  | [] => []
  | p :: _ =>
      let m := fold_left Nat.min (map (@length Z) pads) (length p) in
      concat (map (fun j => map (fun q => nth j q 0) pads) (seq 0 m))
  end.

(** The [pads] attribute [Pool._run_calculation] computes for [avg_pool]
    under SAME auto-padding ([None] strides: the default [[1] * ndim]). *)
Definition pool_same_pads (input_shape : list Z) (strides : option (list Z))
  (kernel_shape : list Z) (mode : string) : hres (list Z) :=
  let ndim := length input_shape in
  let strides' := match strides with Some l => l | None => repeat 1 ndim end in
  match pads_loop input_shape strides' kernel_shape mode (seq 0 (ndim - 2)) with
  | HOk pad_tuple => HOk (zip_flatten pad_tuple)
  | HErr e => HErr e
  end.

(** [onnx_default_layout(dims, op_name)] *)
Definition onnx_default_layout (dims : Z) (op_name : string) : hres string :=
  if dims =? 1 then HOk "NCW"%string
  else if dims =? 2 then HOk "NCHW"%string
  else if dims =? 3 then HOk "NCDHW"%string
  else HErr OpAttributeInvalid.

(** [onnx_storage_order2layout(storage_order, dims, op_name)] *)
Definition onnx_storage_order2layout (storage_order dims : Z) (op_name : string) : hres string :=
  if negb ((storage_order =? 0) || (storage_order =? 1)) then HErr OpAttributeInvalid
  else if dims =? 1 then HOk (if storage_order =? 0 then "NCW"%string else "NWC"%string)
  else if dims =? 2 then HOk (if storage_order =? 0 then "NCHW"%string else "NHWC"%string)
  else if dims =? 3 then HOk (if storage_order =? 0 then "NCDHW"%string else "NDHWC"%string)
  else HErr OpAttributeInvalid.

(** Python [len] of an attribute value: a tuple of ints or a byte string
    has a length, the other kinds raise TypeError. *)
Definition attr_len (a : Attr) : res nat :=
  match a with
  | AInts l => Ok (length l)
  | AStr s => Ok (String.length s)
  | _ => Err TypeError
  end.

(** [dimension_picker(prefix, suffix)(attr)] *)
Definition dimension_picker (prefix suffix : string) (attr : Dict.t Attr) : hres string :=
  match Dict.get attr "kernel_shape"%string with
  | None => HErr (Py (KeyError "kernel_shape"%string))
  | Some kernel =>
      match attr_len kernel with
      | Err e => HErr (Py e)
      | Ok n =>
          if Nat.eqb n 1 then HOk (prefix ++ "1d" ++ suffix)%string
          else if Nat.eqb n 2 then HOk (prefix ++ "2d" ++ suffix)%string
          else if Nat.eqb n 3 then HOk (prefix ++ "3d" ++ suffix)%string
          else HErr OpAttributeInvalid
      end
  end.

(** [_dim_check] of [dimension_constraint()] *)
Definition dim_check (attrs : Dict.t Attr) : res bool :=
  match Dict.get attrs "kernel_shape"%string with
  | None => Err (KeyError "kernel_shape"%string)
  | Some kernel =>
      let! n := attr_len kernel in
      Ok (existsb (Nat.eqb n) [1; 2; 3]%nat)
  end.

(** Python [l[i] = x] for an integer [i]. *)
Definition py_setitem {A} (l : list A) (i : Z) (x : A) : res (list A) :=
  let n := Z.of_nat (length l) in
  let j := if i <? 0 then n + i else i in
  if (j <? 0) || (n <=? j) then Err IndexError
  else Ok (list_set l (Z.to_nat j) x).

(** The position [l[a] = x] writes to in a list of length [N]. *)
Definition slice_norm (N a : Z) : Z := if a <? 0 then a + N else a.

(** [np.iinfo(np.int32).max] *)
Definition int32_max : Z := 2147483647.

(** The loop [for i, axis in enumerate(axes)] of [Slice._common]. *)
Fixpoint slice_common_loop (starts ends : list Z) (axes : list Z) (i : Z)
  (new_starts new_ends : list Z) : res (list Z * list Z) :=
  match axes with
  | [] => Ok (new_starts, new_ends)
  | axis :: t =>
      let! s := py_index starts i in
      let! new_starts := py_setitem new_starts axis s in
      let! e := py_index ends i in
      let! new_ends := py_setitem new_ends axis e in
      slice_common_loop starts ends t (i + 1) new_starts new_ends
  end.

(** [Slice._common(starts, ends, axes)] *)
Definition slice_common (starts ends axes : list Z) : res (list Z * list Z * list Z) :=
  let! m := Converter.py_max axes in
  let N := m + 1 in
  let new_axes := OnnxInput.zseq 0 (Z.to_nat N) in
  let new_starts := repeat 0 (Z.to_nat N) in
  let new_ends := repeat int32_max (Z.to_nat N) in
  let! r := slice_common_loop starts ends axes 0 new_starts new_ends in
  let '(new_starts, new_ends) := r in
  Ok (new_starts, new_ends, new_axes).

(** [relay.bind] with a map from variables: every occurrence of a mapped
    variable is replaced (no construct of [Expr] binds a variable). *)
Fixpoint vmap_get (m : list (Var * Expr)) (v : Var) : option Expr :=
  match m with
  | [] => None
  | (w, e) :: t => if var_eqb w v then Some e else vmap_get t v
  end.

Definition vmap_set (m : list (Var * Expr)) (v : Var) (e : Expr) : list (Var * Expr) :=
  (v, e) :: m.

Fixpoint bind_expr (m : list (Var * Expr)) (e : Expr) : Expr :=
  match e with
  | EVar v => match vmap_get m v with Some e' => e' | None => e end
  | EConst _ => e
  | ECall op args => ECall op (map (bind_expr m) args)
  | ETuple fs => ETuple (map (bind_expr m) fs)
  | EGetItem e' i => EGetItem (bind_expr m e') i
  | EIf c t f => EIf (bind_expr m c) (bind_expr m t) (bind_expr m f)
  end.

(** [GraphProto.freeze(func, params)] on the body of [func]. [bind_map]
    is keyed by the bound expressions; [relay.bind] accepts only variables
    as keys, so a name bound to another expression makes it fail. A later
    entry for the same variable overrides an earlier one, as in the dict. *)
Definition freeze (self : GP) (body : Expr) (params : Dict.t Tensor) : res FResult :=
  let! bind_map :=
    fold_left (fun acc p =>
        let! m := acc in
        let '(name, t) := p in
        if Dict.mem (gp_nodes self) name then
          match Dict.get (gp_nodes self) name with
          | Some (EVar v) => Ok (vmap_set m v (EConst t))
          | Some _ => Err TypeError
          | None => Err (KeyError name)
          end
        else Ok m) params (Ok []) in
  let body := bind_expr bind_map body in
  Ok (RModule (map EVar (free_vars body)) body []).

(** [pad_width] of [Pad._impl_v1] and [Pad._impl_v2]:
<<
        dims = int(len(pads) / 2)
        for i in range(dims):
            pad_width.append((pads[i], pads[i + dims]))
>> *)
Definition pad_width (pads : list Z) : res (list (Z * Z)) :=
  let dims := Z.of_nat (length pads / 2) in
  map_res (fun i => let! b := py_index pads i in
                    let! a := py_index pads (i + dims) in
                    Ok (b, a))
          (OnnxInput.zseq 0 (Z.to_nat dims)).

(** The last value given to attribute [x] in an attribute list, skipping
    empty repeated fields. *)
Definition last_attr (l : list (string * Attr)) (x : string) : option Attr :=
  fold_left (fun acc p => if String.eqb (fst p) x then
                            match snd p with AInts [] => acc | v => Some v end
                          else acc) l None.

(** * Proofs *)

From Stdlib Require Import Sorting.Sorted.

(** ** The converter lookup *)
Section ConverterLemmas.
Import Converter.

Ltac zle_cases :=
  repeat match goal with
         | |- context [?x <=? ?y] => destruct (Z.leb_spec0 x y)
         end.

Lemma insert_Z_comm (a r : Z) (S : list Z) :
  insert_Z a (insert_Z r S) = insert_Z r (insert_Z a S).
Proof.
  induction S as [|y t IH]; cbn [insert_Z].
  - zle_cases; cbn [insert_Z]; zle_cases; try reflexivity; try lia.
    assert (a = r) by lia; subst; reflexivity.
  - zle_cases; cbn [insert_Z]; zle_cases; cbn [insert_Z]; zle_cases;
      try reflexivity; try lia.
    + assert (a = r) by lia; subst; reflexivity.
    + rewrite IH. reflexivity.
Qed.

Lemma sorted_Z_snoc (l : list Z) (r : Z) :
  sorted_Z (l ++ [r]) = insert_Z r (sorted_Z l).
Proof.
  unfold sorted_Z. rewrite fold_right_app. simpl.
  induction l as [|a t IH]; simpl; [reflexivity|].
  rewrite IH. apply insert_Z_comm.
Qed.

Lemma in_insert_Z (x r : Z) (S : list Z) : In x (insert_Z r S) <-> x = r \/ In x S.
Proof.
  induction S as [|y t IH]; simpl.
  - intuition.
  - destruct (r <=? y); simpl; [intuition|].
    rewrite IH. intuition.
Qed.

Lemma in_sorted_Z (x : Z) (l : list Z) : In x (sorted_Z l) <-> In x l.
Proof.
  induction l as [|a t IH]; simpl; [tauto|].
  unfold sorted_Z in *; simpl. rewrite in_insert_Z, IH. intuition.
Qed.

Lemma insert_Z_sorted (r : Z) (S : list Z) :
  StronglySorted Z.le S -> StronglySorted Z.le (insert_Z r S).
Proof.
  induction S as [|y t IH]; intros HS; simpl.
  - repeat constructor.
  - apply StronglySorted_inv in HS as [Ht Hy].
    destruct (r <=? y) eqn:E.
    + rewrite Z.leb_le in E. constructor; [constructor; auto|].
      constructor; [lia|]. eapply Forall_impl; [|exact Hy]. intros; lia.
    + rewrite Z.leb_gt in E. constructor; [auto|].
      apply Forall_forall. intros z Hz. apply in_insert_Z in Hz as [->|Hz]; [lia|].
      rewrite Forall_forall in Hy; auto.
Qed.

Lemma sorted_Z_sorted (l : list Z) : StronglySorted Z.le (sorted_Z l).
Proof.
  induction l as [|a t IH]; simpl; [constructor|].
  apply insert_Z_sorted, IH.
Qed.

Lemma filter_nil_all {A} (f : A -> bool) (l : list A) :
  (forall x, In x l -> f x = false) -> filter f l = [].
Proof.
  induction l as [|a t IH]; intros H; simpl; [reflexivity|].
  rewrite H by (left; reflexivity). apply IH. intros; apply H; right; auto.
Qed.

Lemma filter_sorted_split (r : Z) (S : list Z) :
  StronglySorted Z.le S ->
  S = filter (ltr r) S ++ filter (eqr r) S ++ filter (gtr r) S.
Proof.
  unfold ltr, eqr, gtr.
  induction S as [|y t IH]; intros HS; simpl; [reflexivity|].
  apply StronglySorted_inv in HS as [Ht Hy]. rewrite Forall_forall in Hy.
  specialize (IH Ht).
  destruct (Z.lt_trichotomy y r) as [H|[H|H]].
  - replace (y <? r) with true by (symmetry; apply Z.ltb_lt; lia).
    replace (y =? r) with false by (symmetry; apply Z.eqb_neq; lia).
    replace (r <? y) with false by (symmetry; apply Z.ltb_ge; lia).
    simpl. f_equal. exact IH.
  - subst y. rewrite Z.ltb_irrefl, Z.eqb_refl.
    rewrite (filter_nil_all (fun x => x <? r) t) in *
      by (intros z Hz; specialize (Hy z Hz); apply Z.ltb_ge; lia).
    simpl. f_equal. exact IH.
  - replace (y <? r) with false by (symmetry; apply Z.ltb_ge; lia).
    replace (y =? r) with false by (symmetry; apply Z.eqb_neq; lia).
    replace (r <? y) with true by (symmetry; apply Z.ltb_lt; lia).
    rewrite (filter_nil_all (fun x => x <? r) t) in *
      by (intros z Hz; specialize (Hy z Hz); apply Z.ltb_ge; lia).
    rewrite (filter_nil_all (fun x => x =? r) t) in *
      by (intros z Hz; specialize (Hy z Hz); apply Z.eqb_neq; lia).
    simpl in *. f_equal. exact IH.
Qed.

Lemma insert_Z_split (r : Z) (S : list Z) :
  StronglySorted Z.le S ->
  insert_Z r S = filter (ltr r) S ++ r :: filter (eqr r) S ++ filter (gtr r) S.
Proof.
  intros HS. induction S as [|y t IH]; simpl; [reflexivity|].
  pose proof HS as HS'. apply StronglySorted_inv in HS as [Ht Hy].
  rewrite Forall_forall in Hy.
  destruct (r <=? y) eqn:E.
  - rewrite Z.leb_le in E.
    assert (Hlt : filter (ltr r) (y :: t) = []).
    { apply filter_nil_all. intros z [<-|Hz]; unfold ltr; apply Z.ltb_ge; [lia|].
      specialize (Hy z Hz). lia. }
    pose proof (filter_sorted_split r (y :: t) HS') as Hsp.
    rewrite Hlt in Hsp. simpl in Hsp.
    simpl in Hlt. rewrite Hlt. simpl. f_equal. exact Hsp.
  - rewrite Z.leb_gt in E.
    unfold ltr at 1, eqr at 1, gtr at 1. simpl.
    replace (y <? r) with true by (symmetry; apply Z.ltb_lt; lia).
    replace (y =? r) with false by (symmetry; apply Z.eqb_neq; lia).
    replace (r <? y) with false by (symmetry; apply Z.ltb_ge; lia).
    simpl. f_equal. exact (IH Ht).
Qed.

End ConverterLemmas.

Lemma py_index_ok {A} (l : list A) (i : Z) (x : A) :
  0 <= i -> nth_error l (Z.to_nat i) = Some x -> py_index l i = Ok x.
Proof.
  intros Hi Hn. pose proof (nth_error_Some l (Z.to_nat i)) as [H _].
  assert (Z.to_nat i < length l)%nat by (apply H; congruence).
  unfold py_index.
  destruct (i <? 0) eqn:E1; [rewrite Z.ltb_lt in E1; lia|].
  destruct (i <? 0) eqn:E2; [rewrite Z.ltb_lt in E2; lia|].
  destruct (Z.of_nat (length l) <=? i) eqn:E3; [rewrite Z.leb_le in E3; lia|].
  simpl. rewrite Hn. reflexivity.
Qed.

Section ConverterTheorems.
Import Converter.

Lemma indices_eq_app (r : Z) (L M : list Z) (i : Z) :
  indices_eq r (L ++ M) i = indices_eq r L i ++ indices_eq r M (i + Z.of_nat (length L)).
Proof.
  revert i. induction L as [|a t IH]; intros i; simpl.
  - rewrite Z.add_0_r. reflexivity.
  - rewrite IH. replace (i + 1 + Z.of_nat (length t)) with (i + Z.pos (Pos.of_succ_nat (length t))) by lia.
    destruct (a =? r); reflexivity.
Qed.

Lemma indices_eq_none (r : Z) (L : list Z) (i : Z) :
  (forall x, In x L -> x <> r) -> indices_eq r L i = [].
Proof.
  revert i. induction L as [|a t IH]; intros i H; simpl; [reflexivity|].
  replace (a =? r) with false by (symmetry; apply Z.eqb_neq; apply H; left; auto).
  apply IH. intros; apply H; right; auto.
Qed.

Lemma indices_eq_all (r : Z) (E : list Z) (i : Z) :
  (forall x, In x E -> x = r) -> indices_eq r E i = OnnxInput.zseq i (length E).
Proof.
  revert i. induction E as [|a t IH]; intros i H; simpl; [reflexivity|].
  replace (a =? r) with true by (symmetry; apply Z.eqb_eq; apply H; left; auto).
  f_equal. apply IH. intros; apply H; right; auto.
Qed.

Lemma fold_max_zseq (k : nat) (m : Z) :
  fold_left Z.max (OnnxInput.zseq (m + 1) k) m = m + Z.of_nat k.
Proof.
  revert m. induction k as [|k IH]; intros m; simpl.
  - lia.
  - replace (Z.max m (m + 1)) with (m + 1) by lia.
    rewrite IH. lia.
Qed.

Lemma filter_sorted (f : Z -> bool) (S : list Z) :
  StronglySorted Z.le S -> StronglySorted Z.le (filter f S).
Proof.
  induction S as [|y t IH]; intros HS; simpl; [constructor|].
  apply StronglySorted_inv in HS as [Ht Hy].
  destruct (f y); [|auto].
  constructor; [auto|]. rewrite Forall_forall in *.
  intros z Hz. apply filter_In in Hz as [Hz _]. auto.
Qed.

Lemma sorted_snoc_le (L : list Z) (m x : Z) :
  StronglySorted Z.le (L ++ [m]) -> In x (L ++ [m]) -> x <= m.
Proof.
  induction L as [|a t IH]; simpl; intros HS Hx.
  - destruct Hx as [->|[]]. lia.
  - apply StronglySorted_inv in HS as [Ht Ha]. rewrite Forall_forall in Ha.
    destruct Hx as [<-|Hx].
    + apply Ha. apply in_or_app. right. left. reflexivity.
    + auto.
Qed.

(** The part of the resolution that follows the docstring: when some
    registered version does not exceed the requested opset, the result is
    the largest such version. *)
Lemma get_converter_largest_le (impls : list Z) (r v : Z) :
  In v impls -> v <= r -> (forall w, In w impls -> w <= r -> w <= v) ->
  get_converter impls r = Ok v.
Proof.
  intros Hv Hvr Hmax. unfold get_converter.
  rewrite sorted_Z_snoc, (insert_Z_split r _ (sorted_Z_sorted impls)).
  set (S := sorted_Z impls).
  assert (HS : StronglySorted Z.le S) by apply sorted_Z_sorted.
  assert (HinS : forall x, In x S <-> In x impls) by (intros; apply in_sorted_Z).
  set (L := filter (ltr r) S). set (E := filter (eqr r) S). set (G := filter (gtr r) S).
  assert (HL : forall x, In x L -> In x impls /\ x < r).
  { intros x Hx. apply filter_In in Hx as [Hx Hx']. unfold ltr in Hx'.
    rewrite Z.ltb_lt in Hx'. split; [apply HinS; auto|auto]. }
  assert (HE : forall x, In x E -> In x impls /\ x = r).
  { intros x Hx. apply filter_In in Hx as [Hx Hx']. unfold eqr in Hx'.
    rewrite Z.eqb_eq in Hx'. split; [apply HinS; auto|auto]. }
  assert (HG : forall x, In x G -> r < x).
  { intros x Hx. apply filter_In in Hx as [_ Hx']. unfold gtr in Hx'.
    apply Z.ltb_lt; auto. }
  rewrite indices_eq_app, indices_eq_none
    by (intros x Hx; apply HL in Hx; lia).
  simpl. rewrite Z.eqb_refl, indices_eq_app.
  rewrite (indices_eq_all r E) by (intros x Hx; apply HE in Hx; tauto).
  rewrite (indices_eq_none r G) by (intros x Hx; apply HG in Hx; lia).
  rewrite app_nil_r. unfold py_max. cbn [rbind].
  rewrite fold_max_zseq.
  replace (0 + Z.of_nat (length L) + Z.of_nat (length E) - 1)
    with (Z.of_nat (length L) + Z.of_nat (length E) - 1) by lia.
  destruct E as [|e E'] eqn:HEq.
  - (* no registered version equals r: v is the last element of L *)
    assert (HvL : In v L).
    { apply filter_In. split; [apply HinS; auto|]. unfold ltr. apply Z.ltb_lt.
      destruct (Z.eq_dec v r) as [->|]; [|lia].
      exfalso. assert (In r E) by (apply filter_In; split; [apply HinS; auto|apply Z.eqb_refl]).
      rewrite HEq in H; destruct H. }
    destruct (exists_last (l := L)) as [L' [m HLm]]; [intros H; rewrite H in HvL; destruct HvL|].
    assert (HSL : StronglySorted Z.le (L' ++ [m])) by (rewrite <- HLm; apply filter_sorted; auto).
    assert (Hm : In m L) by (rewrite HLm; apply in_or_app; right; left; auto).
    rewrite (py_index_ok _ _ m).
    + destruct (HL m Hm) as [Hmi Hmr].
      assert (v <= m) by (apply (sorted_snoc_le L'); [auto|rewrite <- HLm; auto]).
      assert (m <= v) by (apply Hmax; [auto|lia]).
      replace m with v by lia.
      cbn [rbind]. replace (existsb (Z.eqb v) impls) with true; [reflexivity|].
      symmetry. apply existsb_exists. exists v. split; [auto|apply Z.eqb_refl].
    + rewrite HLm, length_app. simpl. lia.
    + rewrite HLm, <- app_assoc, nth_error_app2; rewrite length_app; simpl.
      * replace (Z.to_nat (Z.of_nat (length L' + 1) + 0 - 1) - length L')%nat with 0%nat by lia.
        reflexivity.
      * lia.
  - (* r itself is registered *)
    assert (Hr : In r impls) by (destruct (HE e) as [He ->]; [left; auto|auto]).
    assert (v = r) by (pose proof (Hmax r Hr (Z.le_refl r)); lia). subst v.
    rewrite (py_index_ok _ _ r).
    + cbn [rbind]. replace (existsb (Z.eqb r) impls) with true; [reflexivity|].
      symmetry. apply existsb_exists. exists r. split; [auto|apply Z.eqb_refl].
    + simpl. lia.
    + rewrite nth_error_app2 by (simpl; lia).
      replace (Z.to_nat (Z.of_nat (length L) + Z.of_nat (length (e :: E')) - 1) - length L)%nat
        with (length E') by (simpl; lia).
      change (r :: (e :: E') ++ G) with ((r :: e :: E') ++ G).
      rewrite nth_error_app1 by (simpl; lia).
      destruct (nth_error (r :: e :: E') (length E')) as [x|] eqn:Hx.
      * apply nth_error_In in Hx. destruct Hx as [->|Hx]; [reflexivity|].
        apply HE in Hx. destruct Hx as [_ ->]. reflexivity.
      * apply nth_error_None in Hx. simpl in Hx. lia.
Qed.

End ConverterTheorems.

(** ** The converter lookup below the smallest registered version *)

(** C1 (failing input). [Loop] registers only [_impl_v11]; resolving it
    for opset 9 does not fail: the index [-1] wraps to the last element of
    the sorted list, and [_impl_v11] is returned. *)
Lemma C1_loop_opset9_returns_v11 : Converter.get_converter [11] 9 = Ok 11.
Proof. reflexivity. Qed.

(** ** The [onnx_input] wrapper *)
Section OnnxInputLemmas.
Import OnnxInput.

Lemma getitem_int_nonneg {A} (l : list A) (i : Z) :
  0 <= i -> getitem_int l i = Ok (nth_error l (Z.to_nat i)).
Proof.
  intros Hi. unfold getitem_int.
  destruct (i <? Z.of_nat (length l)) eqn:E.
  - rewrite Z.ltb_lt in E.
    destruct (nth_error l (Z.to_nat i)) as [x|] eqn:Hn.
    + rewrite (py_index_ok l i x Hi Hn). reflexivity.
    + apply nth_error_None in Hn. lia.
  - rewrite Z.ltb_ge in E. rewrite (proj2 (nth_error_None l (Z.to_nat i))) by lia.
    reflexivity.
Qed.

Lemma zseq_seq (a : Z) (k : nat) :
  0 <= a -> map Z.to_nat (zseq a k) = seq (Z.to_nat a) k.
Proof.
  revert a. induction k as [|k IH]; intros a Ha; simpl; [reflexivity|].
  f_equal. rewrite IH by lia. f_equal. lia.
Qed.

Lemma map_res_getitem_int {A} (l : list A) (a : Z) (k : nat) :
  0 <= a ->
  map_res (getitem_int l) (zseq a k)
  = Ok (map (fun j => nth_error l j) (seq (Z.to_nat a) k)).
Proof.
  intros Ha. rewrite <- zseq_seq by lia. revert a Ha.
  induction k as [|k IH]; intros a Ha; simpl; [reflexivity|].
  rewrite getitem_int_nonneg by lia. cbn [rbind]. rewrite IH by lia. reflexivity.
Qed.

Lemma nth_error_seq_pad {A} (l : list A) (k a : nat) :
  map (fun j => nth_error l j) (seq a k)
  = map Some (firstn k (skipn a l)) ++ repeat None (k - (length l - a)).
Proof.
  revert a. induction k as [|k IH]; intros a; simpl; [reflexivity|].
  destruct (Nat.lt_ge_cases a (length l)) as [H|H].
  - destruct (nth_error l a) as [x|] eqn:Hx; [|apply nth_error_None in Hx; lia].
    assert (Hs : skipn a l = x :: skipn (S a) l).
    { clear IH. revert a H Hx. induction l as [|y t IHl]; intros a H Hx; simpl in *; [lia|].
      destruct a as [|a]; simpl in *; [congruence|]. apply IHl; [lia|auto]. }
    rewrite Hs. replace (length l - a)%nat with (S (length l - S a)) by lia.
    simpl. rewrite IH. reflexivity.
  - rewrite (proj2 (nth_error_None l a)) by lia.
    rewrite skipn_all2 by lia. rewrite IH, skipn_all2 by lia. simpl.
    replace (length l - a)%nat with 0%nat by lia.
    replace (length l - S a)%nat with 0%nat by lia.
    rewrite !Nat.sub_0_r, !firstn_nil. reflexivity.
Qed.

End OnnxInputLemmas.

Lemma zseq_shift (a b : Z) (c : nat) :
  map (fun k => a + k * 1) (OnnxInput.zseq b c) = OnnxInput.zseq (a + b) c.
Proof.
  revert b. induction c as [|c IH]; intros b; simpl; [reflexivity|].
  f_equal; [lia|]. rewrite IH. f_equal. lia.
Qed.

Lemma zseq_in (a k : Z) (c : nat) :
  In k (OnnxInput.zseq a c) -> a <= k < a + Z.of_nat c.
Proof.
  revert a. induction c as [|c IH]; intros a H; simpl in H; [contradiction|].
  destruct H as [<-|H]; [lia|]. apply IH in H. lia.
Qed.

Lemma prog_bound_pos (a b st k : Z) :
  0 < st -> a < b -> 0 <= k -> k < (b - a + st - 1) / st -> a + k * st < b.
Proof.
  intros Hst Hab Hk Hc.
  pose proof (Z.mul_div_le (b - a + st - 1) st Hst) as Hd. nia.
Qed.

Lemma prog_bound_neg (a b st k : Z) :
  st < 0 -> b < a -> 0 <= k -> k < (a - b + - st - 1) / - st -> b < a + k * st <= a.
Proof.
  intros Hst Hab Hk Hc.
  pose proof (Z.mul_div_le (a - b + - st - 1) (- st) ltac:(lia)) as Hd. nia.
Qed.

(** Every index [slice.indices(n)] selects lies in [[0, n)]. *)
Lemma slice_indices_bounds (n : Z) start stop step (idx : list Z) :
  0 <= n -> OnnxInput.slice_indices n start stop step = Ok idx ->
  forall i, In i idx -> 0 <= i < n.
Proof.
  intros Hn H i Hi. unfold OnnxInput.slice_indices in H. cbv beta zeta in H.
  set (st := match step with Some s => s | None => 1 end) in H.
  destruct (Z.eqb_spec st 0) as [_|Hst0]; [discriminate|].
  destruct (Z.ltb_spec 0 st) as [Hst|Hst]; injection H as <-;
    apply in_map_iff in Hi; destruct Hi as [k [<- Hk]]; apply zseq_in in Hk.
  - set (a := match start with Some x => if x <? 0 then Z.max (x + n) 0 else Z.min x n | None => 0 end) in *.
    set (b := match stop with Some x => if x <? 0 then Z.max (x + n) 0 else Z.min x n | None => n end) in *.
    assert (Ha : 0 <= a <= n) by (unfold a; destruct start as [x|]; [destruct (Z.ltb_spec x 0)|]; lia).
    assert (Hb : 0 <= b <= n) by (unfold b; destruct stop as [x|]; [destruct (Z.ltb_spec x 0)|]; lia).
    destruct (Z.ltb_spec a b) as [Hab|Hab]; [|simpl in Hk; lia].
    rewrite Z2Nat.id in Hk by (apply Z.div_pos; lia).
    pose proof (prog_bound_pos a b st k Hst Hab ltac:(lia) ltac:(lia)). nia.
  - set (a := match start with Some x => if x <? 0 then Z.max (x + n) (-1) else Z.min x (n - 1) | None => n - 1 end) in *.
    set (b := match stop with Some x => if x <? 0 then Z.max (x + n) (-1) else Z.min x (n - 1) | None => -1 end) in *.
    assert (Ha : -1 <= a <= n - 1) by (unfold a; destruct start as [x|]; [destruct (Z.ltb_spec x 0)|]; lia).
    assert (Hb : -1 <= b <= n - 1) by (unfold b; destruct stop as [x|]; [destruct (Z.ltb_spec x 0)|]; lia).
    destruct (Z.ltb_spec b a) as [Hab|Hab]; [|simpl in Hk; lia].
    rewrite Z2Nat.id in Hk by (apply Z.div_pos; lia).
    pose proof (prog_bound_neg a b st k ltac:(lia) Hab ltac:(lia) ltac:(lia)). lia.
Qed.

Lemma map_res_ext_in {A B} (f g : A -> res B) (l : list A) :
  (forall x, In x l -> f x = g x) -> map_res f l = map_res g l.
Proof.
  induction l as [|x t IH]; intros H; simpl; [reflexivity|].
  rewrite (H x (or_introl eq_refl)), IH by (intros y Hy; apply H; right; exact Hy).
  reflexivity.
Qed.

(** Below [stop], indexing the list through [getitem_int] is indexing the
    list padded with [None] up to [stop]. *)
Lemma getitem_int_pad {A} (l : list A) (stop i : Z) :
  Z.of_nat (length l) < stop -> 0 <= i < stop ->
  OnnxInput.getitem_int l i
  = py_index (map Some l ++ repeat None (Z.to_nat (stop - Z.of_nat (length l)))) i.
Proof.
  intros Hs Hi.
  assert (Hlen : length (map Some l ++ repeat (@None A) (Z.to_nat (stop - Z.of_nat (length l))))
                 = Z.to_nat stop) by (rewrite length_app, length_map, repeat_length; lia).
  unfold OnnxInput.getitem_int.
  destruct (Z.ltb_spec i (Z.of_nat (length l))) as [Hl|Hl].
  - destruct (nth_error l (Z.to_nat i)) as [x|] eqn:Hn; [|apply nth_error_None in Hn; lia].
    rewrite (py_index_ok l i x) by (lia || exact Hn). simpl. symmetry. apply py_index_ok; [lia|].
    rewrite nth_error_app1 by (rewrite length_map; lia). rewrite nth_error_map, Hn. reflexivity.
  - symmetry. apply py_index_ok; [lia|].
    rewrite nth_error_app2 by (rewrite length_map; lia). rewrite length_map.
    apply nth_error_repeat. lia.
Qed.

(** A slice whose stop lies past the end of the list. *)
Lemma getitem_slice_past_end {A} (l : list A) start stop step :
  Z.of_nat (length l) < stop ->
  OnnxInput.getitem l (OnnxInput.KSlice start (Some stop) step)
  = let! xs := py_slice (map Some l ++ repeat None (Z.to_nat (stop - Z.of_nat (length l))))
                 start (Some stop) step
    in Ok (OnnxInput.Many xs).
Proof.
  intros Hs. unfold OnnxInput.getitem, py_slice.
  rewrite length_app, length_map, repeat_length.
  replace (Z.of_nat (length l + Z.to_nat (stop - Z.of_nat (length l)))) with stop by lia.
  replace (Z.max stop 0) with stop by lia.
  destruct (OnnxInput.slice_indices stop start (Some stop) step) as [idx|e] eqn:Hi; [|reflexivity].
  simpl. erewrite (map_res_ext_in (OnnxInput.getitem_int l)); [reflexivity|].
  intros i Hin. apply getitem_int_pad; [exact Hs|].
  exact (slice_indices_bounds stop _ _ _ idx ltac:(lia) Hi i Hin).
Qed.

(** C9. [onnx_input.__getitem__]: an integer index at or past the end gives
    [None]; any slice whose stop exceeds the length, whatever its start and
    step, selects what the same slice selects in the list padded with [None]
    up to [stop] (so with start omitted or non-negative and step omitted:
    the elements from [start] on followed by [None] up to [stop]); any key that is neither an int nor a slice raises
    TypeError; a negative integer index is not range-checked by the wrapper
    and indexes from the end as a Python list does (IndexError below
    [-len]). *)
Theorem C9_onnx_input_getitem {A} (l : list A) :
  (forall i, Z.of_nat (length l) <= i ->
     OnnxInput.getitem l (OnnxInput.KInt i) = Ok (OnnxInput.One None)) /\
  (forall start stop,
     match start with Some s => 0 <= s | None => True end ->
     Z.of_nat (length l) < stop ->
     let s := match start with Some s => s | None => 0 end in
     OnnxInput.getitem l (OnnxInput.KSlice start (Some stop) None)
     = Ok (OnnxInput.Many (map Some (skipn (Z.to_nat s) l)
                           ++ repeat None (Z.to_nat (stop - Z.max s (Z.of_nat (length l))))))) /\
  (forall start stop step, Z.of_nat (length l) < stop ->
     OnnxInput.getitem l (OnnxInput.KSlice start (Some stop) step)
     = let! xs := py_slice (map Some l ++ repeat None (Z.to_nat (stop - Z.of_nat (length l))))
                    start (Some stop) step
       in Ok (OnnxInput.Many xs)) /\
  OnnxInput.getitem l OnnxInput.KOther = Err TypeError /\
  (forall i, i < 0 -> - Z.of_nat (length l) <= i ->
     OnnxInput.getitem l (OnnxInput.KInt i)
     = Ok (OnnxInput.One (nth_error l (Z.to_nat (Z.of_nat (length l) + i))))) /\
  (forall i, i < - Z.of_nat (length l) ->
     OnnxInput.getitem l (OnnxInput.KInt i) = Err IndexError).
Proof.
  split; [|split; [|split; [|split; [|split]]]].
  - intros i Hi. unfold OnnxInput.getitem, OnnxInput.getitem_int.
    replace (i <? Z.of_nat (length l)) with false by (symmetry; apply Z.ltb_ge; lia).
    reflexivity.
  - intros start stop Hs Hstop s.
    assert (Hs0 : 0 <= s) by (unfold s; destruct start; auto; lia).
    unfold OnnxInput.getitem, OnnxInput.slice_indices.
    replace (Z.max stop 0) with stop by lia. simpl.
    replace (match start with Some x => if x <? 0 then Z.max (x + stop) 0 else Z.min x stop
             | None => 0 end) with (Z.min s stop)
      by (unfold s; destruct start as [x|]; [replace (x <? 0) with false by (symmetry; apply Z.ltb_ge; lia); reflexivity|lia]).
    replace (stop <? 0) with false by (symmetry; apply Z.ltb_ge; lia).
    rewrite Z.min_id.
    destruct (Z.min s stop <? stop) eqn:E.
    + rewrite Z.ltb_lt in E. assert (Ha : Z.min s stop = s) by lia. rewrite Ha.
      replace ((stop - s + 1 - 1) / 1) with (stop - s) by (rewrite Z.div_1_r; lia).
      rewrite zseq_shift, Z.add_0_r, map_res_getitem_int by lia. cbn [rbind].
      rewrite nth_error_seq_pad. rewrite firstn_all2 by (rewrite length_skipn; lia).
      do 4 f_equal. lia.
    + rewrite Z.ltb_ge in E. simpl. rewrite skipn_all2 by lia.
      replace (Z.to_nat (stop - Z.max s (Z.of_nat (length l)))) with 0%nat by lia.
      reflexivity.
  - intros start stop step Hs. apply getitem_slice_past_end, Hs.
  - reflexivity.
  - intros i Hi Hl. unfold OnnxInput.getitem, OnnxInput.getitem_int.
    replace (i <? Z.of_nat (length l)) with true by (symmetry; apply Z.ltb_lt; lia).
    destruct (nth_error l (Z.to_nat (Z.of_nat (length l) + i))) as [x|] eqn:Hn.
    + unfold py_index.
      replace (i <? 0) with true by (symmetry; apply Z.ltb_lt; lia).
      replace (Z.of_nat (length l) + i <? 0) with false by (symmetry; apply Z.ltb_ge; lia).
      replace (Z.of_nat (length l) <=? Z.of_nat (length l) + i) with false
        by (symmetry; apply Z.leb_gt; lia).
      simpl. rewrite Hn. reflexivity.
    + apply nth_error_None in Hn. lia.
  - intros i Hi. unfold OnnxInput.getitem, OnnxInput.getitem_int, py_index.
    replace (i <? Z.of_nat (length l)) with true by (symmetry; apply Z.ltb_lt; lia).
    replace (i <? 0) with true by (symmetry; apply Z.ltb_lt; lia).
    replace (Z.of_nat (length l) + i <? 0) with true by (symmetry; apply Z.ltb_lt; lia).
    reflexivity.
Qed.

(** ** Dict lemmas *)
Section DictLemmas.
Context {A : Type}.

Lemma dict_mem_get (d : Dict.t A) (x : string) : Dict.mem d x = true <-> Dict.get d x <> None.
Proof.
  unfold Dict.mem, Dict.get. induction d as [|[a b] t IH]; simpl.
  - split; [discriminate|congruence].
  - destruct (String.eqb a x); simpl; [split; [congruence|reflexivity]|exact IH].
Qed.

Lemma dict_get_replace (d : Dict.t A) (k x : string) (v : A) :
  Dict.get (map (fun p => if String.eqb (fst p) k then (k, v) else p) d) x
  = if String.eqb k x then (if Dict.mem d k then Some v else None) else Dict.get d x.
Proof.
  unfold Dict.get, Dict.mem. induction d as [|[a b] t IH]; simpl.
  - destruct (String.eqb k x); reflexivity.
  - destruct (String.eqb a k) eqn:Hak; simpl.
    + apply String.eqb_eq in Hak. subst a.
      destruct (String.eqb k x); [reflexivity|exact IH].
    + destruct (String.eqb a x) eqn:Hax.
      * apply String.eqb_eq in Hax. subst a. simpl.
        destruct (String.eqb_spec k x) as [->|]; [rewrite String.eqb_refl in Hak; discriminate|reflexivity].
      * exact IH.
Qed.

Lemma dict_get_snoc (d : Dict.t A) (k x : string) (v : A) :
  Dict.get (d ++ [(k, v)]) x
  = match Dict.get d x with Some y => Some y | None => if String.eqb k x then Some v else None end.
Proof.
  unfold Dict.get. induction d as [|[a b] t IH]; simpl.
  - destruct (String.eqb k x); reflexivity.
  - destruct (String.eqb a x); simpl; [reflexivity|exact IH].
Qed.

Lemma dict_get_set (d : Dict.t A) (k x : string) (v : A) :
  Dict.get (Dict.set d k v) x = if String.eqb k x then Some v else Dict.get d x.
Proof.
  unfold Dict.set. destruct (Dict.mem d k) eqn:Hm.
  - rewrite dict_get_replace, Hm. reflexivity.
  - rewrite dict_get_snoc. destruct (String.eqb_spec k x) as [<-|].
    + assert (Dict.get d k = None).
      { destruct (Dict.get d k) eqn:E; [|reflexivity].
        exfalso. assert (Dict.mem d k = true) by (apply dict_mem_get; congruence). congruence. }
      rewrite H. reflexivity.
    + destruct (Dict.get d x); reflexivity.
Qed.

Lemma dict_mem_set (d : Dict.t A) (k x : string) (v : A) :
  Dict.mem (Dict.set d k v) x = String.eqb k x || Dict.mem d x.
Proof.
  apply Bool.eq_iff_eq_true. rewrite orb_true_iff, !dict_mem_get, dict_get_set.
  destruct (String.eqb k x); split; intuition congruence.
Qed.

Lemma dict_keys_set (d : Dict.t A) (k : string) (v : A) :
  Dict.keys (Dict.set d k v) = if Dict.mem d k then Dict.keys d else Dict.keys d ++ [k].
Proof.
  unfold Dict.set, Dict.keys. destruct (Dict.mem d k).
  - rewrite map_map. apply map_ext. intros [a b]. simpl.
    destruct (String.eqb_spec a k); simpl; congruence.
  - rewrite map_app. reflexivity.
Qed.

Lemma dict_mem_keys (d : Dict.t A) (x : string) : Dict.mem d x = true <-> In x (Dict.keys d).
Proof.
  unfold Dict.mem, Dict.keys. rewrite existsb_exists, in_map_iff. split.
  - intros [[a b] [Hin Heq]]. apply String.eqb_eq in Heq. exists (a, b). simpl; auto.
  - intros [[a b] [Heq Hin]]. exists (a, b). simpl in *. split; [auto|apply String.eqb_eq; auto].
Qed.

Lemma dict_set_nodup (d : Dict.t A) (k : string) (v : A) :
  NoDup (Dict.keys d) -> NoDup (Dict.keys (Dict.set d k v)).
Proof.
  intros H. rewrite dict_keys_set. destruct (Dict.mem d k) eqn:E; [exact H|].
  apply NoDup_app; [exact H|repeat constructor; simpl; tauto|].
  intros x Hx [<-|[]]. apply dict_mem_keys in Hx. congruence.
Qed.

Lemma dict_get_update (d o : Dict.t A) (x : string) :
  Dict.get (Dict.update d o) x
  = match Dict.get (rev o) x with Some y => Some y | None => Dict.get d x end.
Proof.
  unfold Dict.update. revert d. induction o as [|[a b] t IH]; intros d; simpl.
  - destruct (Dict.get d x); reflexivity.
  - rewrite IH, dict_get_set, dict_get_snoc.
    destruct (Dict.get (rev t) x); [reflexivity|].
    destruct (String.eqb a x); reflexivity.
Qed.

Lemma dict_mem_rev (d : Dict.t A) (x : string) : Dict.mem (rev d) x = Dict.mem d x.
Proof.
  apply Bool.eq_iff_eq_true. unfold Dict.mem. rewrite !existsb_exists.
  split; intros [p [H1 H2]]; exists p; split; auto; [apply in_rev|apply in_rev in H1]; auto.
Qed.

Lemma dict_mem_update (d o : Dict.t A) (x : string) :
  Dict.mem (Dict.update d o) x = Dict.mem o x || Dict.mem d x.
Proof.
  apply Bool.eq_iff_eq_true. rewrite orb_true_iff, <- (dict_mem_rev o), !dict_mem_get, dict_get_update.
  destruct (Dict.get (rev o) x); split; intuition congruence.
Qed.


End DictLemmas.


Lemma promote_mem (d : Dict.t Expr) (fvs : list Var) (x : string) :
  Dict.mem (promote d fvs) x = existsb (fun v => String.eqb (vname v) x) fvs || Dict.mem d x.
Proof.
  unfold promote. revert d. induction fvs as [|v t IH]; intros d; simpl; [reflexivity|].
  rewrite IH, dict_mem_set. destruct (String.eqb (vname v) x); simpl; [|reflexivity].
  rewrite orb_true_r. reflexivity.
Qed.

(** ** One node step *)

Lemma py_index_in {A} (l : list A) (i : Z) (x : A) : py_index l i = Ok x -> In x l.
Proof.
  unfold py_index. intros H.
  destruct (_ || _); [discriminate|].
  destruct (nth_error l _) eqn:E; [|discriminate].
  injection H as <-. eapply nth_error_In; eauto.
Qed.

Lemma removelast_py_removelast {A} (l : list A) : removelast_py l = removelast l.
Proof.
  unfold removelast_py. induction l as [|a t IH]; [reflexivity|].
  destruct t as [|b t]; [reflexivity|].
  change (removelast (a :: b :: t)) with (a :: removelast (b :: t)). rewrite <- IH.
  simpl length. rewrite !Nat.sub_succ, !Nat.sub_0_r. reflexivity.
Qed.

Lemma bind_items_mem (d d' : Dict.t Expr) (op : COut) (names : list string) (i : nat) (x : string) :
  bind_items d op names i = Ok d' -> Dict.mem d' x = true ->
  Dict.mem d x = true \/ In x names.
Proof.
  revert d i. induction names as [|k t IH]; intros d i H Hx; simpl in H.
  - injection H as <-. auto.
  - destruct (tw_item op i) as [e|]; [|discriminate]. simpl in H.
    destruct (IH _ _ H Hx) as [Hm|Hin]; [|right; right; exact Hin].
    rewrite dict_mem_set, orb_true_iff in Hm. destruct Hm as [Hk|Hm]; [|auto].
    apply String.eqb_eq in Hk. subst. right; left; reflexivity.
Qed.

Lemma bind_outputs_mem (d d' : Dict.t Expr) (op : COut) (k : nat) (outs : list string) (x : string) :
  bind_outputs d op k outs = Ok d' -> Dict.mem d' x = true ->
  Dict.mem d x = true \/ In x outs.
Proof.
  unfold bind_outputs. destruct (Nat.eqb k 1).
  - destruct (py_index outs 0) as [y|] eqn:E; [|discriminate]. simpl. intros H Hx.
    injection H as <-. rewrite dict_mem_set, orb_true_iff in Hx.
    destruct Hx as [Hk|Hm]; [|auto]. apply String.eqb_eq in Hk. subst.
    right. eapply py_index_in; eauto.
  - apply bind_items_mem.
Qed.

Lemma reconcile_incl (op op' : COut) (m k : nat) (outs outs' : list string) :
  reconcile op m outs = Ok (op', k, outs') -> incl outs' outs.
Proof.
  unfold reconcile. destruct (mark_valid _ _ _) as [valid|]; [|discriminate]. simpl.
  destruct (forallb _ valid).
  - intros H. injection H as _ _ <-. apply incl_refl.
  - intros H. match type of H with context [rbind ?m _] => destruct m as [outputs|] end;
      [|discriminate].
    simpl in H. injection H as _ _ <-. intros x Hx. apply filter_In in Hx. tauto.
Qed.

(** What a successful step of a node other than If did: the converter's
    result [o], and the bindings of the (fixed) declared outputs. *)
Lemma node_step_inv conv fold rank sub (self : GP) (nd : Node) (n : nat) (self' : GP) (n' : nat) :
  op_type nd <> "If"%string ->
  node_step conv fold rank sub self nd n = Ok (self', n') ->
  let outs := fix_outputs (op_type nd) (n_output nd) in
  n' = n /\ exists inputs attr o nodes,
    conv (op_type nd) inputs attr (gp_params self) (length outs) = Ok o /\
    self' = set_nodes self nodes /\
    ((exists e k, o = Single e /\ outs = [k] /\ nodes = Dict.set (gp_nodes self) k (fold e))
     \/ (exists e, o = TW e 0 /\ outs = [] /\ nodes = gp_nodes self)
     \/ (exists e m op' k outs', o = TW e m /\ (1 < m)%nat /\
           reconcile (TW (fold e) m) m outs = Ok (op', k, outs') /\ length outs' = k /\
           bind_outputs (gp_nodes self) op' k outs' = Ok nodes)).
Proof.
  intros Hif H outs. unfold node_step, convert_operator, mbind, lift in H.
  fold outs in H.
  destruct (parse_attr (attribute nd)) as [attr|]; [|discriminate].
  destruct (map_res _ (n_input nd)) as [inputs|]; [|discriminate].
  simpl in H.
  destruct (in_convert_map (op_type nd)); [|discriminate].
  destruct (String.eqb_spec (op_type nd) "If"); [contradiction|].
  destruct (conv (op_type nd) inputs attr (gp_params self) (length outs)) as [o|] eqn:Hc;
    [|discriminate].
  simpl in H. cbn [mret] in H.
  destruct o as [e|e m].
  - simpl in H. destruct (Nat.eqb (length outs) 1) eqn:Hl; simpl in H; [|discriminate].
    destruct (bind_outputs (gp_nodes self) (Single (fold e)) 1 outs) as [nodes|] eqn:Hb;
      [|discriminate].
    unfold mret in H. injection H as <- <-. split; [reflexivity|].
    exists inputs, attr, (Single e), nodes. split; [exact Hc|]. split; [reflexivity|].
    left. apply Nat.eqb_eq in Hl.
    destruct outs as [|k [|k' t]]; try discriminate.
    unfold bind_outputs in Hb. simpl in Hb. injection Hb as <-.
    exists e, k. auto.
  - destruct (Nat.eqb m 1) eqn:Hm1; [discriminate|]. simpl in H.
    destruct (Nat.ltb 1 m) eqn:Hm.
    + destruct (reconcile (TW (fold e) m) m outs) as [[[op' k] outs']|] eqn:Hr; [|discriminate].
      simpl in H. destruct (Nat.eqb (length outs') k) eqn:Hk; simpl in H; [|discriminate].
      destruct (bind_outputs (gp_nodes self) op' k outs') as [nodes|] eqn:Hb; [|discriminate].
      unfold mret in H. injection H as <- <-. split; [reflexivity|].
      exists inputs, attr, (TW e m), nodes. split; [exact Hc|]. split; [reflexivity|].
      right; right. exists e, m, op', k, outs'.
      apply Nat.ltb_lt in Hm. apply Nat.eqb_eq in Hk. auto.
    + assert (m = 0)%nat by (apply Nat.eqb_neq in Hm1; apply Nat.ltb_ge in Hm; lia). subst m.
      destruct (Nat.eqb (length outs) 0) eqn:Hl; simpl in H; [|discriminate].
      destruct outs; [|discriminate].
      unfold bind_outputs in H. simpl in H.
      unfold mret in H. injection H as <- <-. split; [reflexivity|].
      exists inputs, attr, (TW e 0), (gp_nodes self). split; [exact Hc|].
      split; [destruct self; reflexivity|].
      right; left. exists e. auto.
Qed.

(** The names a step of a node other than If binds are among its fixed
    declared outputs. *)
Lemma node_step_mem conv fold rank sub (self : GP) (nd : Node) (n : nat) (self' : GP) (n' : nat) (x : string) :
  op_type nd <> "If"%string ->
  node_step conv fold rank sub self nd n = Ok (self', n') ->
  Dict.mem (gp_nodes self') x = true ->
  Dict.mem (gp_nodes self) x = true \/ In x (fix_outputs (op_type nd) (n_output nd)).
Proof.
  intros Hif H Hx. destruct (node_step_inv _ _ _ _ _ _ _ _ _ Hif H) as [_ [inputs [attr [o [nodes [Hc [-> Hcases]]]]]]].
  simpl in Hx.
  destruct Hcases as [[e [k [-> [Ho ->]]]]|[[e [-> [Ho ->]]]|[e [m [op' [k [outs' [-> [Hm [Hr [Hl Hb]]]]]]]]]]].
  - rewrite dict_mem_set, orb_true_iff in Hx. destruct Hx as [Hk|Hm]; [|auto].
    apply String.eqb_eq in Hk. subst. right. rewrite Ho. left; reflexivity.
  - auto.
  - destruct (bind_outputs_mem _ _ _ _ _ _ Hb Hx) as [Hm'|Hin]; [auto|].
    right. eapply reconcile_incl; eauto.
Qed.

(** C10: [_fix_outputs] drops the last declared output of a Dropout node
    that declares more than one, and leaves every other output list as it
    is; so a Dropout step binds no name outside the shortened list (in
    particular not its mask output, unless that name was already bound or
    is also declared earlier). *)
Theorem C10_dropout_fix_outputs :
  (forall outs, (1 < length outs)%nat -> fix_outputs "Dropout" outs = removelast outs) /\
  (forall o, fix_outputs "Dropout" [o] = [o]) /\
  (forall op outs, op <> "Dropout"%string -> fix_outputs op outs = outs) /\
  (forall conv fold rank sub self nd n self' n' x,
     op_type nd = "Dropout"%string -> (1 < length (n_output nd))%nat ->
     node_step conv fold rank sub self nd n = Ok (self', n') ->
     Dict.mem (gp_nodes self') x = true ->
     Dict.mem (gp_nodes self) x = true \/ In x (removelast (n_output nd))).
Proof.
  assert (HD : forall outs, (1 < length outs)%nat -> fix_outputs "Dropout" outs = removelast outs).
  { intros outs Hl. unfold fix_outputs. simpl.
    destruct (Nat.eqb_spec (length outs) 1); [lia|]. apply removelast_py_removelast. }
  split; [exact HD|]. split; [reflexivity|]. split.
  - intros op outs Hop. unfold fix_outputs. apply String.eqb_neq in Hop. rewrite Hop. reflexivity.
  - intros conv fold rank sub self nd n self' n' x Hop Hl Hs Hx.
    assert (Hif : op_type nd <> "If"%string) by (rewrite Hop; discriminate).
    destruct (node_step_mem _ _ _ _ _ _ _ _ _ _ Hif Hs Hx) as [H|H]; [auto|].
    right. rewrite Hop, HD in H; assumption.
Qed.

(** ** The Loop termination test *)

Lemma b2z_neq0 (b : bool) : negb (Z.b2z b =? 0) = b.
Proof. destruct b; reflexivity. Qed.

(** C5: the test of the loop built by [Loop._impl_v11], on the loop
    variables [(i, max_count, cond, ...)]. Before building it the converter
    calls [infer_type] on the trip count and on the condition, so a loop
    with a trip count only, or with a condition only, fails with TVMError;
    with both it is built with the test [cond == True and i < max_count];
    with neither, the first [infer_type] fails before the assertion. *)
Theorem C5_loop_termination_mode (env : Var -> option Z) (vi vm vw : Var) (rest : list Expr)
  (i m w : Z) (mc cnd : Expr) :
  env vi = Some i -> env vm = Some m -> env vw = Some w ->
  let li := EVar vi :: EVar vm :: EVar vw :: rest in
  LoopCond.loop_test (Some mc) None li = Err TVMError /\
  LoopCond.loop_test None (Some cnd) li = Err TVMError /\
  (exists c, LoopCond.loop_test (Some mc) (Some cnd) li = Ok c /\
             LoopCond.eval env c = Some (Z.b2z ((w =? 1) && (i <? m)))) /\
  LoopCond.loop_test None None li = Err TVMError.
Proof.
  intros Hi Hm Hw li. subst li. unfold LoopCond.loop_test, LoopCond.cond_fn.
  rewrite (py_index_ok _ 0 (EVar vi)), (py_index_ok _ 1 (EVar vm)), (py_index_ok _ 2 (EVar vw));
    try reflexivity; try lia.
  split; [reflexivity|]. split; [reflexivity|]. split; [|reflexivity].
  eexists; split; [reflexivity|]. simpl. rewrite Hi, Hm, Hw. simpl.
  rewrite !b2z_neq0. reflexivity.
Qed.

Lemma C5_loop_termination_mode_witness :
  exists c, LoopCond.loop_test (Some (EConst [5])) (Some (EConst [1]))
              [EVar (mkVar "i" 0); EVar (mkVar "max_count" 1); EVar (mkVar "cond" 2)] = Ok c /\
            LoopCond.eval loop_env c = Some 1.
Proof.
  destruct (C5_loop_termination_mode loop_env (mkVar "i" 0) (mkVar "max_count" 1)
              (mkVar "cond" 2) [] 2 5 1 (EConst [5]) (EConst [1]) eq_refl eq_refl eq_refl)
    as [_ [_ [H _]]].
  exact H.
Defined.

(** ** Reporting unsupported operators *)




(** ** A graph made of one initializer *)

(** C8: a graph whose only content is one initializer [w] (a non-blank
    name, whose contents [_parse_array] turns into the array [A]) and the
    declared output [w] imports, with frozen parameters, as the function
    with no parameter returning [A] as a constant; and, without, as the
    function whose one parameter is the variable [w], returned with the
    table binding [w] to [A]. *)
Theorem C8_single_initializer conv fold rank parse (fuel : nat) (w : string) (T A : Tensor)
  (opset : Z) :
  is_blank w = false -> parse (mkInit w T) = Ok A ->
  from_onnx_model conv fold rank parse (S fuel) [] true opset (mkGraph [mkInit w T] [] [] [w])
    = Ok (RModule [] (EConst A) []) /\
  from_onnx_model conv fold rank parse (S fuel) [] false opset (mkGraph [mkInit w T] [] [] [w])
    = Ok (RModule [EVar (mkVar w 0)] (EVar (mkVar w 0)) [(w, A)]).
Proof.
  intros Hb Hp. split; unfold from_onnx_model; cbn;
    unfold reg_init, mbind, mret, lift, mfail, assemble, lookup_node, new_var; cbn;
    unfold is_blank in Hb; rewrite Hb; cbn; rewrite Hp; cbn; unfold var_eqb, inv_lookup, Dict.get; cbn;
    repeat (rewrite String.eqb_refl; cbn); reflexivity.
Qed.

Lemma C8_single_initializer_witness :
  demo_import 1 [] true 13 (mkGraph [mkInit "w" [7]] [] [] ["w"])%string
    = Ok (RModule [] (EConst [7]) []) /\
  demo_import 1 [] false 13 (mkGraph [mkInit "w" [7]] [] [] ["w"])%string
    = Ok (RModule [EVar (mkVar "w" 0)] (EVar (mkVar "w" 0)) [("w", [7])])%string.
Proof.
  exact (C8_single_initializer demo_convert demo_fold demo_rank demo_parse 0 "w" [7] [7] 13
           eq_refl eq_refl).
Defined.

(** ** Optional outputs *)

Lemma list_set_length {A} (l : list A) (i : nat) (x : A) : length (list_set l i x) = length l.
Proof.
  revert i. induction l as [|y t IH]; intros [|i]; simpl; auto.
Qed.

Lemma list_set_nth {A} (l : list A) (i p : nat) (x d : A) :
  (i < length l)%nat ->
  nth p (list_set l i x) d = if Nat.eqb p i then x else nth p l d.
Proof.
  revert i p. induction l as [|y t IH]; intros i p Hi; simpl in Hi; [lia|].
  destruct i as [|i], p as [|p]; simpl; try reflexivity. apply IH. lia.
Qed.






Lemma map_res_forall2 {A B} (f : A -> res B) (l : list A) (xs : list B) :
  map_res f l = Ok xs -> Forall2 (fun a b => f a = Ok b) l xs.
Proof.
  revert xs. induction l as [|a t IH]; intros xs H; simpl in H.
  - injection H as <-. constructor.
  - destruct (f a) as [b|] eqn:Ef; [|discriminate]. simpl in H.
    destruct (map_res f t) as [ys|]; [|discriminate]. injection H as <-.
    constructor; [exact Ef|]. apply IH. reflexivity.
Qed.





(** ** The If converter *)

Lemma If_impl_inv rank sub (gs : GP) (inputs : list (option Expr)) (attr : Dict.t Attr)
  (n : nat) (gs' : GP) (o : COut) (n' : nat) :
  If_impl rank sub gs inputs attr n = Ok ((gs', o), n') ->
  let child := set_nodes (new_gp (gp_shape gs) (gp_freeze gs) false) (gp_nodes gs) in
  exists c0 tb eb tg tex eg eex n1,
    OnnxInput.getitem_int inputs 0 = Ok (Some (Some c0)) /\
    Dict.get attr "then_branch"%string = Some (AGraph tb) /\
    Dict.get attr "else_branch"%string = Some (AGraph eb) /\
    sub child tb n = Ok ((tg, tex), n1) /\
    sub child eb n1 = Ok ((eg, eex), n') /\
    gs' = set_nodes
            (set_params gs (Dict.update (Dict.update (gp_params gs) (gp_params tg)) (gp_params eg)))
            (promote (Dict.update (promote (Dict.update (gp_nodes gs) (gp_nodes tg)) (free_vars tex))
                                  (gp_nodes eg)) (free_vars eex)) /\
    astuple o = EIf (if Nat.ltb 0 (rank c0) then ECall "take" [c0; EConst [0]] else c0) tex eex.
Proof.
  intros H child. unfold If_impl, mbind, lift, mfail, mret in H.
  destruct (OnnxInput.getitem_int inputs 0) as [[[c0|]|]|] eqn:Hc; try discriminate.
  destruct (Dict.get attr "then_branch"%string) as [[| | | |tb]|] eqn:Ht;
    destruct (Dict.get attr "else_branch"%string) as [[| | | |eb]|] eqn:He; try discriminate.
  fold child in H.
  destruct (sub child tb n) as [[[tg tex] n1]|] eqn:Hs1; [|discriminate].
  destruct (sub child eb n1) as [[[eg eex] n2]|] eqn:Hs2; [|discriminate].
  injection H as <- <- <-.
  exists c0, tb, eb, tg, tex, eg, eex, n1. repeat split; auto.
  destruct (Nat.ltb 1 (length (output tb))); reflexivity.
Qed.

(** C6: the If converter converts both branches in child scopes that start
    from a copy of the enclosing scope's bindings, the else branch from the
    copy taken before the then branch was converted; but afterwards the
    enclosing scope binds every name bound in the enclosing scope, in
    either branch's scope, or naming a free variable of either branch, so
    the nodes converted after the If can use names bound inside a branch. *)
Theorem C6_if_merges_branch_bindings rank sub (gs : GP) (inputs : list (option Expr))
  (attr : Dict.t Attr) (n : nat) (gs' : GP) (o : COut) (n' : nat) :
  If_impl rank sub gs inputs attr n = Ok ((gs', o), n') ->
  let child := set_nodes (new_gp (gp_shape gs) (gp_freeze gs) false) (gp_nodes gs) in
  exists tb eb tg tex eg eex n1,
    Dict.get attr "then_branch"%string = Some (AGraph tb) /\
    Dict.get attr "else_branch"%string = Some (AGraph eb) /\
    sub child tb n = Ok ((tg, tex), n1) /\
    sub child eb n1 = Ok ((eg, eex), n') /\
    forall x, Dict.mem (gp_nodes gs') x
              = Dict.mem (gp_nodes gs) x || Dict.mem (gp_nodes tg) x
                || existsb (fun v => String.eqb (vname v) x) (free_vars tex)
                || Dict.mem (gp_nodes eg) x
                || existsb (fun v => String.eqb (vname v) x) (free_vars eex).
Proof.
  intros H child.
  destruct (If_impl_inv _ _ _ _ _ _ _ _ _ H) as
    [c0 [tb [eb [tg [tex [eg [eex [n1 [_ [Ht [He [Hs1 [Hs2 [-> _]]]]]]]]]]]]]].
  exists tb, eb, tg, tex, eg, eex, n1. repeat split; auto.
  intros x. simpl. repeat rewrite ?promote_mem, ?dict_mem_update.
  destruct (Dict.mem (gp_nodes gs) x), (Dict.mem (gp_nodes tg) x),
    (existsb _ (free_vars tex)), (Dict.mem (gp_nodes eg) x), (existsb _ (free_vars eex));
    reflexivity.
Qed.

(** ** Counterexamples and failing inputs *)



(** C6: the node after the If reads [t], bound inside the then branch. *)
Lemma C6_counterexample :
  demo_import 3 [] false 13 g_leak
  = Ok (RModule [EVar (mkVar "c" 0)]
          (ECall "Add" [EIf (EVar (mkVar "c" 0)) (ECall "Relu" [EVar (mkVar "c" 0)])
                            (ECall "Neg" [EVar (mkVar "c" 0)]);
                        ECall "Relu" [EVar (mkVar "c" 0)]]) [])%string.
Proof. vm_compute. reflexivity. Qed.


Lemma C6_if_merges_branch_bindings_witness :
  exists gs' o n',
    If_impl demo_rank (demo_sub 2) leak_scope [Some (EVar (mkVar "c" 0))] leak_attr 1%nat
      = Ok ((gs', o), n') /\
    Dict.mem (gp_nodes gs') "t"%string = true.
Proof.
  destruct (If_impl demo_rank (demo_sub 2) leak_scope [Some (EVar (mkVar "c" 0))] leak_attr 1%nat)
    as [[[gs' o] n']|e] eqn:H.
  - exists gs', o, n'. split; [reflexivity|].
    destruct (C6_if_merges_branch_bindings _ _ _ _ _ _ _ _ _ H)
      as [tb [eb [tg [tex [eg [eex [n1 [Ht [He [Hs1 [Hs2 Hm]]]]]]]]]]].
    rewrite Hm. vm_compute in Ht. injection Ht as <-.
    vm_compute in Hs1. injection Hs1 as <- _ _. vm_compute. reflexivity.
  - vm_compute in H. discriminate.
Defined.

(** ** The assembled function *)

Section DictMore.
Context {A : Type}.



Lemma dict_set_app (d : Dict.t A) (k : string) (v : A) :
  Dict.mem d k = false -> Dict.set d k v = d ++ [(k, v)].
Proof. unfold Dict.set. intros ->. reflexivity. Qed.

Lemma dict_get_in (d : Dict.t A) (k : string) (v : A) :
  NoDup (Dict.keys d) -> In (k, v) d -> Dict.get d k = Some v.
Proof.
  unfold Dict.get, Dict.keys. induction d as [|[a b] t IH]; simpl; [tauto|].
  intros Hnd Hin. inversion Hnd as [|? ? Hna Hnd']; subst.
  destruct Hin as [Heq|Hin].
  - injection Heq as -> ->. rewrite String.eqb_refl. reflexivity.
  - destruct (String.eqb_spec a k) as [->|]; [|apply IH; assumption].
    exfalso. apply Hna. apply in_map_iff. exists (k, v). auto.
Qed.

Lemma dict_mem_in (d : Dict.t A) (k : string) :
  Dict.mem d k = true -> exists v, In (k, v) d.
Proof.
  rewrite dict_mem_get. unfold Dict.get. destruct (find _ d) as [[a b]|] eqn:E; [|congruence].
  intros _. apply find_some in E. destruct E as [Hin Heq]. apply String.eqb_eq in Heq.
  simpl in Heq. subst. exists b. exact Hin.
Qed.

End DictMore.

Lemma inv_lookup_in (d : Dict.t Expr) (v : Var) (k : string) :
  inv_lookup d v = Some k -> In (k, EVar v) d.
Proof.
  unfold inv_lookup.
  assert (H : forall acc, fold_left (fun acc p => match snd p with
                          | EVar w => if var_eqb w v then Some (fst p) else acc
                          | _ => acc end) d acc = Some k ->
              acc = Some k \/ In (k, EVar v) d).
  { induction d as [|[a e] t IH]; intros acc Hf; simpl in Hf; [auto|].
    destruct (IH _ Hf) as [Hacc|Hin]; [|right; right; exact Hin].
    destruct e; try (left; exact Hacc).
    destruct (var_eqb v0 v) eqn:Ev; [|left; exact Hacc].
    right; left. injection Hacc as ->. unfold var_eqb in Ev.
    apply andb_true_iff in Ev. destruct Ev as [E1 E2].
    apply Nat.eqb_eq in E1. apply String.eqb_eq in E2.
    destruct v0, v; simpl in *; subst; reflexivity. }
  intros Hf. destruct (H None Hf) as [Hn|Hin]; [discriminate|exact Hin].
Qed.

Lemma map_res_in {A B} (f : A -> res B) (l : list A) (ys : list B) (y : B) :
  map_res f l = Ok ys -> In y ys -> exists x, In x l /\ f x = Ok y.
Proof.
  intros H. apply map_res_forall2 in H. induction H as [|x y' l' ys' Hf H IH]; intros Hy.
  - destruct Hy.
  - simpl in Hy. destruct Hy as [Heq|Hin].
    + subst y'. exists x. split; [left; reflexivity|exact Hf].
    + destruct (IH Hin) as [x' [Hx' Hf']]. exists x'. split; [right; exact Hx'|exact Hf'].
Qed.

(** The parameters [assemble] adds after the inputs. *)
Lemma assemble_fold (nodes : Dict.t Expr) (names : list string) (keys : list string)
  (acc fin : Dict.t Expr) :
  fold_left (fun acc i_name =>
        let! inputs := acc in
        if existsb (String.eqb i_name) names && negb (Dict.mem inputs i_name) then
          match Dict.get nodes i_name with
          | Some e => Ok (Dict.set inputs i_name e)
          | None => Err (KeyError i_name)
          end
        else Ok inputs) keys (Ok acc) = Ok fin ->
  exists added, fin = acc ++ added /\
    forall k e, In (k, e) added -> In k names /\ Dict.get nodes k = Some e.
Proof.
  assert (Herr : forall keys e, fold_left (fun acc i_name =>
        let! inputs := acc in
        if existsb (String.eqb i_name) names && negb (Dict.mem inputs i_name) then
          match Dict.get nodes i_name with
          | Some e => Ok (Dict.set inputs i_name e)
          | None => Err (KeyError i_name)
          end
        else Ok inputs) keys (Err e) = Err e).
  { induction keys0 as [|k t IH]; intros e; simpl; [reflexivity|apply IH]. }
  revert acc. induction keys as [|k t IH]; intros acc H; simpl in H.
  - injection H as <-. exists []. rewrite app_nil_r. split; [reflexivity|]. intros _ _ [].
  - destruct (existsb (String.eqb k) names && negb (Dict.mem acc k)) eqn:E.
    + apply andb_true_iff in E. destruct E as [E1 E2]. apply negb_true_iff in E2.
      destruct (Dict.get nodes k) as [e|] eqn:Hg; [|rewrite Herr in H; discriminate].
      destruct (IH _ H) as [added [-> Hadd]].
      exists ((k, e) :: added). rewrite dict_set_app by exact E2. rewrite <- app_assoc.
      split; [reflexivity|]. intros k' e' [Heq|Hin]; [|apply Hadd; exact Hin].
      injection Heq as <- <-. split; [|exact Hg].
      apply existsb_exists in E1. destruct E1 as [y [Hy Hky]]. apply String.eqb_eq in Hky.
      subst. exact Hy.
    + exact (IH _ H).
Qed.

(** What [assemble] returns: the inputs' values first, then variables
    free in the result. *)
Lemma assemble_spec (self s : GP) (outputs : Expr) (ps : list Expr) (body : Expr)
  (tbl : Dict.t Tensor) :
  NoDup (Dict.keys (gp_nodes self)) ->
  assemble self outputs = Ok (s, RModule ps body tbl) ->
  body = outputs /\ tbl = gp_params self /\
  exists extra, ps = Dict.values (gp_inputs self) ++ extra /\
    forall p, In p extra -> exists v, p = EVar v /\ In v (free_vars outputs).
Proof.
  intros Hnd H. unfold assemble in H.
  destruct (map_res _ (free_vars outputs)) as [names|] eqn:Hn; [|discriminate]. simpl in H.
  match type of H with rbind ?m _ = _ => destruct m as [fin|] eqn:Hf end; [|discriminate].
  simpl in H. injection H as _ <- <- <-.
  split; [reflexivity|]. split; [reflexivity|].
  destruct (assemble_fold _ _ _ _ _ Hf) as [added [-> Hadd]].
  exists (Dict.values added). split; [unfold Dict.values; apply map_app|].
  intros p Hp. unfold Dict.values in Hp. apply in_map_iff in Hp.
  destruct Hp as [[k e] [<- Hin]]. destruct (Hadd _ _ Hin) as [Hk Hg]. simpl.
  destruct (map_res_in _ _ _ _ Hn Hk) as [v [Hv Hl]].
  destruct (inv_lookup (gp_nodes self) v) as [k'|] eqn:Hi; [|discriminate].
  injection Hl as ->. apply inv_lookup_in in Hi.
  rewrite (dict_get_in _ _ _ Hnd Hi) in Hg. injection Hg as <-.
  exists v. auto.
Qed.




Section Registration.
Variables (freeze : bool) (inits ins : list string) (parse : Init -> res Tensor).






End Registration.


(** ** The parameters of the assembled function *)









Section InputKeys.
Variables (freeze : bool) (inits : list string).



End InputKeys.












(** * Helpers of the converters *)

(** ** get_pad_pair and the SAME padding of avg_pool *)

Lemma get_pad_pair_ok (i k s : Z) (mode : string) :
  0 < s -> 0 < k ->
  exists b a, get_pad_pair i k s mode
              = HOk (if str_contains "LOWER" mode then [a; b] else [b; a]) /\
    0 <= b <= a /\ a <= b + 1 /\ (i + b + a - k) / s + 1 = (i + s - 1) / s.
Proof.
  intros Hs Hk. unfold get_pad_pair.
  replace (s =? 0) with false by (symmetry; apply Z.eqb_neq; lia).
  set (pad := if i mod s =? 0 then Z.max (k - s) 0 else Z.max (k - i mod s) 0).
  assert (Hp : 0 <= pad) by (unfold pad; destruct (i mod s =? 0); lia).
  exists (pad / 2), (pad - pad / 2). split.
  - destruct (str_contains "LOWER" mode); reflexivity.
  - pose proof (Z.div_mod pad 2 ltac:(lia)) as Hd. pose proof (Z.mod_pos_bound pad 2 ltac:(lia)).
    assert (0 <= pad / 2) by (apply Z.div_pos; lia).
    split; [lia|]. split; [lia|].
    replace (i + pad / 2 + (pad - pad / 2) - k) with (i + pad - k) by lia.
    assert (D : forall x q r, 0 <= r < s -> x = s * q + r -> x / s = q)
      by (intros x q r Hr Hx; symmetry; eapply Z.div_unique_pos; eauto).
    pose proof (Z.div_mod i s ltac:(lia)) as Hi. pose proof (Z.mod_pos_bound i s Hs) as Hr.
    set (q := i / s) in *. set (r := i mod s) in *.
    unfold pad. destruct (r =? 0) eqn:Er.
    + apply Z.eqb_eq in Er. rewrite (D (i + s - 1) q (s - 1)) by lia.
      destruct (Z.le_gt_cases s k).
      * rewrite Z.max_l by lia. rewrite (D _ (q - 1) 0) by lia. lia.
      * rewrite Z.max_r by lia. rewrite (D _ (q - 1) (s - k)) by lia. lia.
    + apply Z.eqb_neq in Er. rewrite (D (i + s - 1) (q + 1) (r - 1)) by lia.
      destruct (Z.le_gt_cases r k).
      * rewrite Z.max_l by lia. rewrite (D _ q 0) by lia. lia.
      * rewrite Z.max_r by lia. rewrite (D _ q (r - k)) by lia. lia.
Qed.

(** [get_pad_pair] with a positive stride and kernel splits the padding
    into two halves differing by at most one, the larger one after the
    data (before it when the mode contains "LOWER"), and makes the
    pooled length [floor((in + pad - kernel) / stride) + 1] equal to
    [ceil(in / stride)]. *)
Theorem get_pad_pair_same_output (i k s : Z) (mode : string) :
  0 < s -> 0 < k ->
  exists b a, get_pad_pair i k s mode
              = HOk (if str_contains "LOWER" mode then [a; b] else [b; a]) /\
    0 <= b <= a /\ a <= b + 1 /\ (i + b + a - k) / s + 1 = (i + s - 1) / s.
Proof. apply get_pad_pair_ok. Qed.

Lemma get_pad_pair_same_output_witness :
  exists b a, get_pad_pair 7 3 2 "SAME_UPPER" = HOk [b; a] /\
    0 <= b <= a /\ a <= b + 1 /\ (7 + b + a - 3) / 2 + 1 = (7 + 2 - 1) / 2.
Proof.
  destruct (get_pad_pair_same_output 7 3 2 "SAME_UPPER" ltac:(lia) ltac:(lia)) as [b [a H]].
  exists b, a. exact H.
Defined.

Lemma pads_loop_ok (sh st ks : list Z) (mode : string) (axes : list nat) :
  (forall ax, In ax axes ->
     (2 + ax < length sh)%nat /\ (ax < length st)%nat /\ (ax < length ks)%nat /\
     0 < nth ax st 0 /\ 0 < nth ax ks 0) ->
  exists pads, pads_loop sh st ks mode axes = HOk pads /\ length pads = length axes /\
    forall t, (t < length axes)%nat ->
      let ax := nth t axes 0%nat in
      exists b a, nth t pads [] = (if str_contains "LOWER" mode then [a; b] else [b; a]) /\
        0 <= b <= a /\ a <= b + 1 /\
        (nth (2 + ax) sh 0 + b + a - nth ax ks 0) / nth ax st 0 + 1
        = (nth (2 + ax) sh 0 + nth ax st 0 - 1) / nth ax st 0.
Proof.
  induction axes as [|ax t IH]; intros H.
  - exists []. split; [reflexivity|]. split; [reflexivity|]. simpl; intros; lia.
  - destruct (H ax (or_introl eq_refl)) as (H1 & H2 & H3 & H4 & H5).
    destruct IH as (pads & Hp & Hl & Ht); [intros; apply H; right; auto|].
    destruct (get_pad_pair_ok (nth (2 + ax) sh 0) (nth ax ks 0) (nth ax st 0) mode H4 H5)
      as (b & a & Hg & Hb & Ho).
    assert (E : forall (l : list Z) j, (j < length l)%nat -> py_index l (Z.of_nat j) = Ok (nth j l 0)).
    { intros l j Hj. apply py_index_ok; [lia|]. rewrite Nat2Z.id. apply nth_error_nth'. auto. }
    exists ((if str_contains "LOWER" mode then [a; b] else [b; a]) :: pads). cbn [pads_loop].
    replace (2 + Z.of_nat ax) with (Z.of_nat (2 + ax)) by lia.
    rewrite !E by auto. cbn [hlift].
    rewrite Hg, Hp. split; [reflexivity|]. split; [simpl; lia|].
    intros [|t'] Ht'; simpl.
    + exists b, a. auto.
    + apply Ht. simpl in Ht'. lia.
Qed.

Lemma zip_flatten_pairs (pads : list (list Z)) :
  (forall p, In p pads -> length p = 2%nat) ->
  zip_flatten pads = map (fun p => nth 0 p 0) pads ++ map (fun p => nth 1 p 0) pads.
Proof.
  intros H. destruct pads as [|p t]; [reflexivity|]. unfold zip_flatten.
  assert (Hm : forall l, (forall q, In q l -> length q = 2%nat) ->
                 fold_left Nat.min (map (@length Z) l) 2%nat = 2%nat).
  { induction l as [|q l IH]; intros Hl; simpl; [reflexivity|].
    rewrite Hl by (left; auto). apply IH. intros; apply Hl; right; auto. }
  rewrite H by (left; auto). rewrite Hm by auto.
  simpl. rewrite app_nil_r. reflexivity.
Qed.

(** [avg_pool] under SAME auto-padding, for an input of shape
    [(batch, channels, spatial...)] with a kernel and strides (the given
    ones or the default ones) covering every spatial axis, positive there:
    the [pads] attribute lists all the begin paddings, then all the end
    paddings, one per spatial axis; begin and end differ by at most one,
    the end one being the larger unless the mode contains "LOWER"; and
    every spatial axis pools to [ceil(in / stride)] elements. *)
Theorem pool_same_pads_layout (nb ch : Z) (sp ks : list Z) (strides : option (list Z))
  (mode : string) :
  let st := match strides with Some l => l | None => repeat 1 (length (nb :: ch :: sp)) end in
  (length sp <= length ks)%nat -> (length sp <= length st)%nat ->
  (forall j, (j < length sp)%nat -> 0 < nth j st 0 /\ 0 < nth j ks 0) ->
  exists bf af, pool_same_pads (nb :: ch :: sp) strides ks mode = HOk (bf ++ af) /\
    length bf = length sp /\ length af = length sp /\
    forall j, (j < length sp)%nat ->
      let b := nth j bf 0 in
      let a := nth j af 0 in
      (if str_contains "LOWER" mode then 0 <= a <= b /\ b <= a + 1
       else 0 <= b <= a /\ a <= b + 1) /\
      (nth j sp 0 + b + a - nth j ks 0) / nth j st 0 + 1
      = (nth j sp 0 + nth j st 0 - 1) / nth j st 0.
Proof.
  intros st Hk Hs Hpos. unfold pool_same_pads. fold st.
  replace (length (nb :: ch :: sp) - 2)%nat with (length sp) by (simpl; lia).
  destruct (pads_loop_ok (nb :: ch :: sp) st ks mode (seq 0 (length sp))) as (pads & Hp & Hl & Ht).
  { intros ax Hax. apply in_seq in Hax. simpl. specialize (Hpos ax ltac:(lia)). lia. }
  rewrite length_seq in Hl, Ht.
  assert (H2 : forall p, In p pads -> length p = 2%nat).
  { intros p Hp'. apply In_nth with (d := []) in Hp' as (t & Htl & <-).
    destruct (Ht t ltac:(lia)) as (b & a & -> & _). destruct (str_contains "LOWER" mode); reflexivity. }
  rewrite Hp, zip_flatten_pairs by exact H2.
  do 2 eexists. split; [reflexivity|]. rewrite !length_map. split; [lia|]. split; [lia|].
  intros j Hj.
  assert (Hm : forall f : list Z -> Z, nth j (map f pads) 0 = f (nth j pads [])).
  { intros f. rewrite (nth_indep _ 0 (f [])) by (rewrite length_map; lia). apply map_nth. }
  rewrite !Hm.
  destruct (Ht j ltac:(lia)) as (b & a & Hn & Hba & Hab & Ho).
  rewrite seq_nth in Ho by lia. simpl in Ho. rewrite Hn.
  destruct (str_contains "LOWER" mode); simpl.
  - split; [lia|]. replace (nth j sp 0 + a + b - nth j ks 0) with (nth j sp 0 + b + a - nth j ks 0) by lia. exact Ho.
  - split; [lia|]. exact Ho.
Qed.

Lemma pool_same_pads_layout_witness :
  pool_same_pads [1; 3; 7; 6] (Some [2; 2]) [3; 3] "SAME_UPPER" = HOk [1; 0; 1; 1] /\
  exists bf af, pool_same_pads [1; 3; 7; 6] (Some [2; 2]) [3; 3] "SAME_UPPER" = HOk (bf ++ af) /\
    length bf = 2%nat /\ length af = 2%nat.
Proof.
  split; [reflexivity|].
  destruct (pool_same_pads_layout 1 3 [7; 6] [3; 3] (Some [2; 2]) "SAME_UPPER"
              ltac:(simpl; lia) ltac:(simpl; lia)
              ltac:(intros j Hj; destruct j as [|[|j]]; simpl in *; lia))
    as (bf & af & H & Hb & Ha & _).
  exists bf, af. auto.
Defined.

(** ** Layouts *)

(** [onnx_storage_order2layout] rejects every storage order other than 0
    and 1 whatever the rank; order 0 gives the default layout
    [onnx_default_layout]; order 1 gives, for every supported rank, the
    channels-last version of the default layout ("NC" followed by the
    spatial axes becomes "N", the spatial axes, "C"); and exactly the
    ranks 1, 2 and 3 are supported. *)
Theorem storage_order_layouts :
  forall (dims : Z) (op_name : string),
    (forall so, so <> 0 -> so <> 1 ->
       onnx_storage_order2layout so dims op_name = HErr OpAttributeInvalid) /\
    onnx_storage_order2layout 0 dims op_name = onnx_default_layout dims op_name /\
    (forall l, onnx_default_layout dims op_name = HOk l ->
       exists rest, l = ("NC" ++ rest)%string /\
         onnx_storage_order2layout 1 dims op_name = HOk ("N" ++ rest ++ "C")%string) /\
    ((exists l, onnx_default_layout dims op_name = HOk l) <-> 1 <= dims <= 3).
Proof.
  intros dims op. split; [|split; [|split]].
  - intros so H0 H1. unfold onnx_storage_order2layout.
    replace (so =? 0) with false by (symmetry; apply Z.eqb_neq; auto).
    replace (so =? 1) with false by (symmetry; apply Z.eqb_neq; auto). reflexivity.
  - unfold onnx_storage_order2layout, onnx_default_layout. reflexivity.
  - intros l. unfold onnx_storage_order2layout, onnx_default_layout. simpl.
    destruct (dims =? 1); [intros [= <-]; exists "W"%string; auto|].
    destruct (dims =? 2); [intros [= <-]; exists "HW"%string; auto|].
    destruct (dims =? 3); [intros [= <-]; exists "DHW"%string; auto|].
    discriminate.
  - unfold onnx_default_layout. split.
    + intros [l Hl].
      destruct (Z.eqb_spec dims 1); [lia|]. destruct (Z.eqb_spec dims 2); [lia|].
      destruct (Z.eqb_spec dims 3); [lia|discriminate].
    + intros H. assert (dims = 1 \/ dims = 2 \/ dims = 3) as [-> | [-> | ->]] by lia;
        eexists; reflexivity.
Qed.

(** ** dimension_picker and dimension_constraint *)

(** The custom check [dimension_constraint] of the pooling and
    convolution converters and the op-name picker [dimension_picker]
    agree on every attribute dict: when the check accepts the attributes
    the picker returns the prefix followed by "1d", "2d" or "3d" and the
    suffix; when the check rejects them the picker raises
    OpAttributeInvalid; and when the check raises (no kernel_shape, or a
    kernel_shape without a length) the picker raises the same error. *)
Theorem dimension_picker_constraint_agree :
  forall (prefix suffix : string) (attrs : Dict.t Attr),
    match dim_check attrs with
    | Ok true => exists d, In d ["1d"; "2d"; "3d"]%string /\
                   dimension_picker prefix suffix attrs = HOk (prefix ++ d ++ suffix)%string
    | Ok false => dimension_picker prefix suffix attrs = HErr OpAttributeInvalid
    | Err e => dimension_picker prefix suffix attrs = HErr (Py e)
    end.
Proof.
  intros prefix suffix attrs. unfold dim_check, dimension_picker.
  destruct (Dict.get attrs "kernel_shape"%string) as [k|]; [|reflexivity].
  destruct (attr_len k) as [n|e]; [|reflexivity]. simpl.
  destruct n as [|[|[|[|n]]]]; simpl; try reflexivity.
  - exists "1d"%string. simpl; auto.
  - exists "2d"%string. simpl; auto.
  - exists "3d"%string. simpl; auto.
Qed.

(** ** Slice._common *)

Lemma fold_max_ge (l : list Z) (x : Z) :
  x <= fold_left Z.max l x /\ forall a, In a l -> a <= fold_left Z.max l x.
Proof.
  revert x. induction l as [|y t IH]; intros x; simpl; [split; [lia|tauto]|].
  destruct (IH (Z.max x y)) as [H1 H2]. split; [lia|].
  intros a [<-|Ha]; [lia|auto].
Qed.

Lemma py_max_ge (l : list Z) (m : Z) : Converter.py_max l = Ok m -> forall a, In a l -> a <= m.
Proof.
  destruct l as [|x t]; simpl; [discriminate|]. intros [= <-] a Ha.
  destruct (fold_max_ge t x) as [H1 H2]. destruct Ha as [<-|Ha]; auto.
Qed.

Lemma py_setitem_ok {A} (l : list A) (i : Z) (x : A) :
  let j := if i <? 0 then Z.of_nat (length l) + i else i in
  0 <= j < Z.of_nat (length l) -> py_setitem l i x = Ok (list_set l (Z.to_nat j) x).
Proof.
  intros j Hj. unfold py_setitem. fold j.
  replace (j <? 0) with false by (symmetry; apply Z.ltb_ge; lia).
  replace (Z.of_nat (length l) <=? j) with false by (symmetry; apply Z.leb_gt; lia).
  reflexivity.
Qed.

Lemma py_index_nth (l : list Z) (i : Z) :
  0 <= i < Z.of_nat (length l) -> py_index l i = Ok (nth (Z.to_nat i) l 0).
Proof.
  intros Hi. apply py_index_ok; [lia|]. apply nth_error_nth'. lia.
Qed.

Section SliceLoop.
Variables (starts ends : list Z) (N : Z).

Lemma slice_loop_ok (axes : list Z) :
  forall (i : Z) (ns ne : list Z),
  0 <= i -> Z.of_nat (length ns) = N -> Z.of_nat (length ne) = N ->
  (forall a, In a axes -> - N <= a < N) ->
  NoDup (map (slice_norm N) axes) ->
  i + Z.of_nat (length axes) <= Z.of_nat (length starts) ->
  i + Z.of_nat (length axes) <= Z.of_nat (length ends) ->
  exists ns' ne', slice_common_loop starts ends axes i ns ne = Ok (ns', ne') /\
    length ns' = length ns /\ length ne' = length ne /\
    (forall j, (j < length axes)%nat ->
       nth (Z.to_nat (slice_norm N (nth j axes 0))) ns' 0 = nth (Z.to_nat i + j) starts 0 /\
       nth (Z.to_nat (slice_norm N (nth j axes 0))) ne' 0 = nth (Z.to_nat i + j) ends 0) /\
    (forall p, (p < Z.to_nat N)%nat -> ~ In (Z.of_nat p) (map (slice_norm N) axes) ->
       nth p ns' 0 = nth p ns 0 /\ nth p ne' 0 = nth p ne 0).
Proof.
  induction axes as [|a t IH]; intros i ns ne Hi Hns Hne Hax Hnd Hs He.
  - exists ns, ne. simpl. repeat split; auto; intros; lia.
  - simpl in Hs, He. apply NoDup_cons_iff in Hnd as [Hna Hnd].
    destruct (Hax a (or_introl eq_refl)) as [Ha1 Ha2].
    assert (Hn : 0 <= slice_norm N a < N) by (unfold slice_norm; destruct (Z.ltb_spec a 0); lia).
    cbn [slice_common_loop].
    assert (Hj1 : (if a <? 0 then Z.of_nat (length ns) + a else a) = slice_norm N a)
      by (rewrite Hns; unfold slice_norm; destruct (a <? 0); lia).
    assert (Hj2 : (if a <? 0 then Z.of_nat (length ne) + a else a) = slice_norm N a)
      by (rewrite Hne; unfold slice_norm; destruct (a <? 0); lia).
    rewrite py_index_nth by lia. cbn [rbind].
    rewrite py_setitem_ok by (rewrite Hj1; lia). cbn [rbind]. rewrite Hj1.
    rewrite py_index_nth by lia. cbn [rbind].
    rewrite py_setitem_ok by (rewrite Hj2; lia). cbn [rbind]. rewrite Hj2.
    set (ns1 := list_set ns (Z.to_nat (slice_norm N a)) (nth (Z.to_nat i) starts 0)).
    set (ne1 := list_set ne (Z.to_nat (slice_norm N a)) (nth (Z.to_nat i) ends 0)).
    destruct (IH (i + 1) ns1 ne1) as (ns' & ne' & Hr & Hl1 & Hl2 & Hset & Hfr); auto; try lia.
    { unfold ns1. rewrite list_set_length. auto. }
    { unfold ne1. rewrite list_set_length. auto. }
    { intros; apply Hax; right; auto. }
    exists ns', ne'. split; [exact Hr|].
    unfold ns1, ne1 in *. rewrite list_set_length in Hl1, Hl2.
    split; [auto|]. split; [auto|]. split.
    + intros [|j] Hj; simpl.
      * destruct (Hfr (Z.to_nat (slice_norm N a))) as [F1 F2]; [lia| |].
        { rewrite Z2Nat.id by lia. auto. }
        rewrite F1, F2, !list_set_nth by lia. rewrite Nat.eqb_refl, Nat.add_0_r. auto.
      * destruct (Hset j ltac:(simpl in Hj; lia)) as [S1 S2].
        replace (Z.to_nat (i + 1) + j)%nat with (Z.to_nat i + S j)%nat in S1, S2 by lia. auto.
    + intros p Hp Hpn. simpl in Hpn.
      assert (Hpa : Z.of_nat p <> slice_norm N a) by (intros E; apply Hpn; left; symmetry; exact E).
      destruct (Hfr p Hp) as [F1 F2]; [tauto|].
      rewrite F1, F2, !list_set_nth by lia.
      replace (Nat.eqb p (Z.to_nat (slice_norm N a))) with false by (symmetry; apply Nat.eqb_neq; lia).
      auto.
Qed.

End SliceLoop.

Lemma nth_repeat_Z (k p : nat) (x : Z) : (p < k)%nat -> nth p (repeat x k) 0 = x.
Proof.
  revert p. induction k as [|k IH]; intros [|p] Hp; simpl; try lia; auto. apply IH. lia.
Qed.

(** [Slice._common(starts, ends, axes)] with [N = max(axes) + 1]: when
    every axis is at least [-N], the positions they denote (a negative
    axis counting from [N]) are distinct, and [starts] and [ends] have an
    entry for every axis, it returns two lists of length [N] and the axes
    [0 .. N-1]; the position of the [i]-th axis holds [starts[i]] and
    [ends[i]], every other position holds 0 and [int32 max]. *)
Theorem slice_common_spec (starts ends axes : list Z) (m : Z) :
  Converter.py_max axes = Ok m ->
  (forall a, In a axes -> - (m + 1) <= a) ->
  NoDup (map (slice_norm (m + 1)) axes) ->
  (length axes <= length starts)%nat -> (length axes <= length ends)%nat ->
  exists ns ne,
    slice_common starts ends axes = Ok (ns, ne, OnnxInput.zseq 0 (Z.to_nat (m + 1))) /\
    length ns = Z.to_nat (m + 1) /\ length ne = Z.to_nat (m + 1) /\
    (forall j, (j < length axes)%nat ->
       nth (Z.to_nat (slice_norm (m + 1) (nth j axes 0))) ns 0 = nth j starts 0 /\
       nth (Z.to_nat (slice_norm (m + 1) (nth j axes 0))) ne 0 = nth j ends 0) /\
    (forall p, (p < Z.to_nat (m + 1))%nat -> ~ In (Z.of_nat p) (map (slice_norm (m + 1)) axes) ->
       nth p ns 0 = 0 /\ nth p ne 0 = int32_max).
Proof.
  intros Hm Hge Hnd Hs He.
  assert (Hle := py_max_ge axes m Hm).
  assert (HN : 0 <= m + 1).
  { destruct axes as [|a t]; [discriminate|].
    specialize (Hge a (or_introl eq_refl)). specialize (Hle a (or_introl eq_refl)). lia. }
  unfold slice_common. rewrite Hm. cbn [rbind].
  destruct (slice_loop_ok starts ends (m + 1) axes 0 (repeat 0 (Z.to_nat (m + 1)))
              (repeat int32_max (Z.to_nat (m + 1))))
    as (ns & ne & Hr & Hl1 & Hl2 & Hset & Hfr);
    rewrite ?repeat_length; try lia; auto.
  { intros a Ha. split; [auto|]. specialize (Hle a Ha). lia. }
  rewrite Hr. cbn [rbind]. exists ns, ne.
  rewrite repeat_length in Hl1, Hl2.
  split; [reflexivity|]. split; [auto|]. split; [auto|]. split.
  - intros j Hj. apply Hset. auto.
  - intros p Hp Hn. destruct (Hfr p Hp Hn) as [F1 F2]. rewrite F1, F2, !nth_repeat_Z by auto.
    auto.
Qed.

Lemma slice_common_spec_witness :
  slice_common [1; 2] [5; 6] [2; -3] = Ok ([2; 0; 1], [6; int32_max; 5], [0; 1; 2]) /\
  exists ns ne, slice_common [1; 2] [5; 6] [2; -3] = Ok (ns, ne, OnnxInput.zseq 0 3) /\
    length ns = 3%nat.
Proof.
  split; [reflexivity|].
  destruct (slice_common_spec [1; 2] [5; 6] [2; -3] 2 eq_refl
              ltac:(intros a [<-|[<-|[]]]; lia) ltac:(repeat constructor; simpl; intuition discriminate)
              ltac:(simpl; lia) ltac:(simpl; lia))
    as (ns & ne & H & Hl & _).
  exists ns, ne. auto.
Defined.

(** ** Version resolution outside the docstring's range *)

Lemma filter_all_true {A} (f : A -> bool) (l : list A) :
  (forall x, In x l -> f x = true) -> filter f l = l.
Proof.
  induction l as [|a t IH]; intros H; simpl; [reflexivity|].
  rewrite H by (left; auto). f_equal. apply IH. intros; apply H; right; auto.
Qed.

Lemma py_index_last {A} (l : list A) (x : A) : py_index (l ++ [x]) (0 - 1) = Ok x.
Proof.
  unfold py_index. rewrite length_app. simpl length.
  replace (0 - 1 <? 0) with true by reflexivity.
  replace (Z.of_nat (length l + 1) + (0 - 1)) with (Z.of_nat (length l)) by lia.
  replace (Z.of_nat (length l) <? 0) with false by (symmetry; apply Z.ltb_ge; lia).
  replace (Z.of_nat (length l + 1) <=? Z.of_nat (length l)) with false
    by (symmetry; apply Z.leb_gt; lia).
  rewrite Nat2Z.id, nth_error_app2, Nat.sub_diag by lia. reflexivity.
Qed.

(** [get_converter] on a class without any [_impl_vN] raises
    NotImplementedError for every opset; when every registered version
    exceeds the requested opset, it does not raise but returns the
    largest registered version, whatever the opset. *)
Theorem get_converter_below_registered :
  (forall r, Converter.get_converter [] r = Err NotImplementedError) /\
  (forall impls r m, In m impls -> (forall v, In v impls -> r < v /\ v <= m) ->
     Converter.get_converter impls r = Ok m).
Proof.
  split.
  - intros r. unfold Converter.get_converter. simpl. rewrite Z.eqb_refl. reflexivity.
  - intros impls r m Hm Hall. unfold Converter.get_converter.
    rewrite sorted_Z_snoc, (insert_Z_split r _ (sorted_Z_sorted impls)).
    set (Sl := Converter.sorted_Z impls).
    assert (HS : StronglySorted Z.le Sl) by apply sorted_Z_sorted.
    assert (HinS : forall x, In x Sl <-> In x impls) by (intros; apply in_sorted_Z).
    rewrite (filter_nil_all (ltr r)), (filter_nil_all (eqr r)), (filter_all_true (gtr r));
      try (intros x Hx; apply HinS in Hx; specialize (Hall x Hx); unfold ltr, eqr, gtr;
           first [apply Z.ltb_ge | apply Z.eqb_neq | apply Z.ltb_lt]; lia).
    cbn [app Converter.indices_eq]. rewrite Z.eqb_refl, indices_eq_none
      by (intros x Hx; apply HinS in Hx; specialize (Hall x Hx); lia).
    cbn [Converter.py_max fold_left rbind].
    destruct (exists_last (l := Sl)) as [Sp [m' HSm]].
    { intros H. assert (In m Sl) by (apply HinS; auto). rewrite H in *. contradiction. }
    assert (Hm' : In m' impls) by (apply HinS; rewrite HSm; apply in_or_app; right; left; auto).
    assert (m' <= m) by (apply Hall; auto).
    assert (m <= m').
    { apply (sorted_snoc_le Sp); [rewrite <- HSm; auto|rewrite <- HSm; apply HinS; auto]. }
    replace m' with m in HSm by lia.
    rewrite HSm. change (r :: Sp ++ [m]) with ((r :: Sp) ++ [m]).
    rewrite py_index_last. cbn [rbind].
    replace (existsb (Z.eqb m) impls) with true; [reflexivity|].
    symmetry. apply existsb_exists. exists m. split; [auto|apply Z.eqb_refl].
Qed.

(** When some registered version does not exceed the requested opset,
    [get_converter] returns the largest such version. *)
Theorem get_converter_largest_registered_le (impls : list Z) (r v : Z) :
  In v impls -> v <= r -> (forall w, In w impls -> w <= r -> w <= v) ->
  Converter.get_converter impls r = Ok v.
Proof. apply get_converter_largest_le. Qed.

Lemma get_converter_largest_registered_le_witness :
  Converter.get_converter [1; 6; 13] 11 = Ok 6.
Proof.
  apply get_converter_largest_registered_le; [simpl; auto|lia|].
  intros w [<-|[<-|[<-|[]]]]; lia.
Defined.

(** ** GraphProto.freeze *)

Lemma var_eqb_spec (v w : Var) : var_eqb v w = true <-> v = w.
Proof.
  destruct v as [n1 i1], w as [n2 i2]. unfold var_eqb; simpl.
  rewrite andb_true_iff, Nat.eqb_eq, String.eqb_eq.
  split; [intros [-> ->]; reflexivity|intros [= -> ->]; auto].
Qed.

Lemma existsb_var_eqb (v : Var) (l : list Var) : existsb (var_eqb v) l = true <-> In v l.
Proof.
  rewrite existsb_exists. split.
  - intros [w [Hw E]]. apply var_eqb_spec in E. subst. auto.
  - intros H. exists v. split; [auto|apply var_eqb_spec; auto].
Qed.

Lemma dedup_vars_in (seen l : list Var) (v : Var) :
  In v (dedup_vars seen l) <-> In v l /\ ~ In v seen.
Proof.
  revert seen. induction l as [|w t IH]; intros seen; simpl; [tauto|].
  destruct (existsb (var_eqb w) seen) eqn:E.
  - apply existsb_var_eqb in E. rewrite IH. split; [tauto|].
    intros [[<-|H] Hn]; [contradiction|auto].
  - assert (Hw : ~ In w seen) by (intros H; apply existsb_var_eqb in H; congruence).
    simpl. rewrite IH. simpl. split.
    + intros [<-|[H1 H2]]; [tauto|]. split; [auto|tauto].
    + intros [[<-|H] Hn]; [left; auto|].
      destruct (var_eqb w v) eqn:Ewv; [left; apply var_eqb_spec; auto|].
      right. split; [auto|]. intros [<-|H']; [rewrite (proj2 (var_eqb_spec w w) eq_refl) in Ewv; discriminate|auto].
Qed.

Lemma free_vars_in (e : Expr) (v : Var) : In v (free_vars e) <-> In v (vars_of e).
Proof. unfold free_vars. rewrite dedup_vars_in. simpl. tauto. Qed.

Section Bind.
Variable m : list (Var * Expr).
Hypothesis Hconst : forall v e, vmap_get m v = Some e -> vars_of e = [].

Lemma vars_bind_expr : forall (e : Expr) (v : Var),
  In v (vars_of (bind_expr m e)) <-> In v (vars_of e) /\ vmap_get m v = None.
Proof.
  fix IH 1. intros e v. destruct e as [w|t|op args|fs|e' i|c t f]; simpl.
  - destruct (vmap_get m w) as [e'|] eqn:E.
    + rewrite (Hconst w e' E). simpl. split; [tauto|].
      intros [[<-|[]] Hn]. congruence.
    + simpl. split; [intros [<-|[]]; auto|intros [[<-|[]] _]; auto].
  - tauto.
  - induction args as [|a t IHa]; simpl; [tauto|].
    rewrite !in_app_iff, IH, IHa. tauto.
  - induction fs as [|a t IHa]; simpl; [tauto|].
    rewrite !in_app_iff, IH, IHa. tauto.
  - apply IH.
  - rewrite !in_app_iff, !IH. tauto.
Qed.

End Bind.

Lemma freeze_fold (nodes : Dict.t Expr) (params : Dict.t Tensor) :
  (forall name t, In (name, t) params -> Dict.mem nodes name = true ->
     exists v, Dict.get nodes name = Some (EVar v)) ->
  forall m0, (forall v e, vmap_get m0 v = Some e -> vars_of e = []) ->
  exists m, fold_left (fun acc p =>
        let! m := acc in
        let '(name, t) := p in
        if Dict.mem nodes name then
          match Dict.get nodes name with
          | Some (EVar v) => Ok (vmap_set m v (EConst t))
          | Some _ => Err TypeError
          | None => Err (KeyError name)
          end
        else Ok m) params (Ok m0) = Ok m /\
    (forall v e, vmap_get m v = Some e -> vars_of e = []) /\
    (forall v, vmap_get m v = None <->
       vmap_get m0 v = None /\
       forall name t, In (name, t) params -> Dict.get nodes name <> Some (EVar v)).
Proof.
  induction params as [|[name t] rest IH]; intros Hp m0 H0; simpl.
  - exists m0. split; [reflexivity|]. split; [auto|]. intros v; tauto.
  - destruct (Dict.mem nodes name) eqn:Em.
    + destruct (Hp name t (or_introl eq_refl) Em) as [w Hw]. rewrite Hw.
      destruct (IH (fun n t' H => Hp n t' (or_intror H)) (vmap_set m0 w (EConst t)))
        as (m & Hf & Hc & Hi).
      { intros v e. unfold vmap_set. simpl. destruct (var_eqb w v); [intros [= <-]; reflexivity|apply H0]. }
      exists m. split; [exact Hf|]. split; [exact Hc|]. intros v. rewrite Hi.
      unfold vmap_set. simpl. destruct (var_eqb w v) eqn:E.
      * apply var_eqb_spec in E. subst w. split; [intros [[=] _]|].
        intros [_ H]. exfalso. apply (H name t (or_introl eq_refl)). exact Hw.
      * assert (w <> v) by (intros <-; rewrite (proj2 (var_eqb_spec w w) eq_refl) in E; discriminate).
        split.
        -- intros [H1 H2]. split; [auto|]. intros n t' [Heq|Hn]; [|exact (H2 n t' Hn)]. injection Heq as <- <-. rewrite Hw. congruence.
        -- intros [H1 H2]. split; [auto|]. intros n t' Hn. exact (H2 n t' (or_intror Hn)).
    + destruct (IH (fun n t' H => Hp n t' (or_intror H)) m0 H0) as (m & Hf & Hc & Hi).
      exists m. split; [exact Hf|]. split; [exact Hc|]. intros v. rewrite Hi.
      assert (Hg : Dict.get nodes name = None).
      { destruct (Dict.get nodes name) eqn:E; [|reflexivity].
        assert (Dict.mem nodes name = true) by (apply dict_mem_get; congruence). congruence. }
      split.
      * intros [H1 H2]. split; [auto|]. intros n t' [Heq|Hn]; [injection Heq as <- <-; rewrite Hg; congruence|exact (H2 n t' Hn)].
      * intros [H1 H2]. split; [auto|]. intros n t' Hn. exact (H2 n t' (or_intror Hn)).
Qed.

(** [GraphProto.freeze] when every parameter name that names a node is
    bound to a variable: it returns a function with an empty residual
    params dict whose parameters are the free variables of its body, and a
    variable is free in the new body iff it was free in the old one and no
    parameter name is bound to it (those are replaced by constants). *)
Theorem freeze_binds_params (self : GP) (body : Expr) (params : Dict.t Tensor) :
  (forall name t, In (name, t) params -> Dict.mem (gp_nodes self) name = true ->
     exists v, Dict.get (gp_nodes self) name = Some (EVar v)) ->
  exists body', freeze self body params = Ok (RModule (map EVar (free_vars body')) body' []) /\
    forall v, In v (free_vars body') <->
      In v (free_vars body) /\
      forall name t, In (name, t) params -> Dict.get (gp_nodes self) name <> Some (EVar v).
Proof.
  intros Hp. unfold freeze.
  destruct (freeze_fold (gp_nodes self) params Hp [] ltac:(discriminate)) as (m & Hf & Hc & Hi).
  rewrite Hf. cbn [rbind]. eexists. split; [reflexivity|].
  intros v. rewrite !free_vars_in, vars_bind_expr by exact Hc. rewrite Hi. simpl. tauto.
Qed.

Lemma freeze_binds_params_witness :
  freeze (set_nodes (new_gp [] false true)
            [("w"%string, EVar (mkVar "w" 0)); ("x"%string, EVar (mkVar "x" 1))])
         (ECall "add" [EVar (mkVar "x" 1); EVar (mkVar "w" 0)]) [("w"%string, [1])]
  = Ok (RModule [EVar (mkVar "x" 1)] (ECall "add" [EVar (mkVar "x" 1); EConst [1]]) []) /\
  exists body',
    freeze (set_nodes (new_gp [] false true)
              [("w"%string, EVar (mkVar "w" 0)); ("x"%string, EVar (mkVar "x" 1))])
           (ECall "add" [EVar (mkVar "x" 1); EVar (mkVar "w" 0)]) [("w"%string, [1])]
    = Ok (RModule (map EVar (free_vars body')) body' []).
Proof.
  split; [reflexivity|].
  destruct (freeze_binds_params
              (set_nodes (new_gp [] false true)
                 [("w"%string, EVar (mkVar "w" 0)); ("x"%string, EVar (mkVar "x" 1))])
              (ECall "add" [EVar (mkVar "x" 1); EVar (mkVar "w" 0)]) [("w"%string, [1])])
    as [b [Hb _]].
  { intros name t [Heq|[]] _. injection Heq as <- <-. exists (mkVar "w" 0). reflexivity. }
  exists b. exact Hb.
Defined.

(** ** Registration of initializers and inputs *)

Lemma mfold_reg_init_blank parse (pre post : list Init) (it : Init) (self : GP) (n : nat) :
  is_blank (init_name it) = true ->
  (forall p, In p pre -> is_blank (init_name p) = false /\ exists t, parse p = Ok t) ->
  mfold (reg_init parse) (pre ++ it :: post) self n = Err ValueError.
Proof.
  intros Hb. revert self n. induction pre as [|a t IH]; intros self n Hpre; simpl.
  - unfold mbind, reg_init. rewrite Hb. reflexivity.
  - destruct (Hpre a (or_introl eq_refl)) as [Ha [ta Hta]].
    unfold mbind at 1, reg_init. rewrite Ha. unfold mbind, lift. rewrite Hta.
    destruct (gp_freeze self); simpl; apply IH; intros p Hp; apply Hpre; right; exact Hp.
Qed.



(** [from_onnx] stops with ValueError at the first initializer of the
    graph whose name is blank (empty or made of whitespace), provided the
    initializers before it have names and parse; the inputs and nodes are
    not looked at. *)
Theorem from_onnx_blank_initializer conv fold rank parse (fuel : nat) (self : GP) (g : Graph)
  (opset : Z) (get_output_expr : bool) (n : nat) (pre post : list Init) (it : Init) :
  initializer g = pre ++ it :: post ->
  is_blank (init_name it) = true ->
  (forall p, In p pre -> is_blank (init_name p) = false /\ exists t, parse p = Ok t) ->
  from_onnx conv fold rank parse (S fuel) self g opset get_output_expr n = Err ValueError.
Proof.
  intros Hg Hb Hpre. cbn [from_onnx]. unfold mbind at 1. rewrite Hg.
  rewrite mfold_reg_init_blank by assumption.
  reflexivity.
Qed.

Lemma from_onnx_blank_initializer_witness :
  demo_import 1 [] false 13
    (mkGraph [mkInit "w" [1]; mkInit (String (Ascii.ascii_of_nat 28) EmptyString) [2]]
             ["x"]%string [] ["x"]%string)
  = Err ValueError.
Proof.
  unfold demo_import, from_onnx_model.
  rewrite (from_onnx_blank_initializer demo_convert demo_fold demo_rank demo_parse 0
             (new_gp [] false true)
             (mkGraph [mkInit "w" [1]; mkInit (String (Ascii.ascii_of_nat 28) EmptyString) [2]]
                      ["x"]%string [] ["x"]%string)
             13 false 0 [mkInit "w" [1]] [] (mkInit (String (Ascii.ascii_of_nat 28) EmptyString) [2])).
  - reflexivity.
  - reflexivity.
  - reflexivity.
  - intros p [<-|[]]. split; [reflexivity|]. exists [1]. reflexivity.
Defined.



(** ** _parse_attr *)

Lemma parse_attr_one_get (acc acc' : Dict.t Attr) (p : string * Attr) (x : string) :
  parse_attr_one acc p = Ok acc' ->
  Dict.get acc' x = (if String.eqb (fst p) x then
                       match snd p with AInts [] => Dict.get acc x | v => Some v end
                     else Dict.get acc x) /\
  (Dict.mem acc' x = true <-> Dict.mem acc x = true \/ fst p = x) /\
  (NoDup (Dict.keys acc) -> NoDup (Dict.keys acc')).
Proof.
  destruct p as [name v]. unfold parse_attr_one. simpl.
  assert (Hset : forall w, Dict.set acc name w = acc' ->
            Dict.get acc' x = (if String.eqb name x then Some w else Dict.get acc x) /\
            (Dict.mem acc' x = true <-> Dict.mem acc x = true \/ name = x) /\
            (NoDup (Dict.keys acc) -> NoDup (Dict.keys acc'))).
  { intros w <-. rewrite dict_get_set, dict_mem_set, orb_true_iff, String.eqb_eq.
    split; [reflexivity|]. split; [tauto|apply dict_set_nodup]. }
  destruct v as [i|[|z l]|s|t|g]; try (intros [= H]; exact (Hset _ H)).
  destruct (Dict.mem acc name) eqn:Em; [|discriminate]. intros [= <-].
  split; [destruct (String.eqb name x); reflexivity|]. split; [|auto].
  split; [tauto|]. intros [H| <-]; auto.
  destruct (Dict.mem acc name) eqn:Em; [discriminate|]. intros [= H]. exact (Hset _ H).
Qed.

(** When [_parse_attr] succeeds, the attribute dict has each name once,
    exactly the names of the attribute list, and the value of a name is
    the one of its last attribute, an attribute with empty repeated fields
    keeping the earlier value. *)
Theorem parse_attr_last_value (l : list (string * Attr)) (attrs : Dict.t Attr) :
  parse_attr l = Ok attrs ->
  NoDup (Dict.keys attrs) /\
  (forall x, Dict.mem attrs x = true <-> In x (map fst l)) /\
  (forall x, Dict.get attrs x = last_attr l x).
Proof.
  unfold parse_attr, last_attr.
  assert (Hgen : forall l acc, parse_attr_aux acc l = Ok attrs ->
    NoDup (Dict.keys acc) ->
    NoDup (Dict.keys attrs) /\
    (forall x, Dict.mem attrs x = true <-> Dict.mem acc x = true \/ In x (map fst l)) /\
    (forall x, Dict.get attrs x =
       fold_left (fun acc p => if String.eqb (fst p) x then
                                 match snd p with AInts [] => acc | v => Some v end
                               else acc) l (Dict.get acc x))).
  { induction l0 as [|p t IH]; intros acc H Hnd; simpl in H.
    - injection H as <-. split; [auto|]. split; [simpl; tauto|reflexivity].
    - destruct (parse_attr_one acc p) as [acc1|e] eqn:E1; [|discriminate]. simpl in H.
      destruct (IH acc1 H) as (H1 & H2 & H3).
      { apply (proj2 (proj2 (parse_attr_one_get acc acc1 p "" E1))). exact Hnd. }
      split; [exact H1|]. split.
      + intros x. rewrite H2. destruct (parse_attr_one_get acc acc1 p x E1) as (_ & Hm & _).
        rewrite Hm. simpl. intuition.
      + intros x. rewrite H3. simpl. f_equal.
        destruct (parse_attr_one_get acc acc1 p x E1) as (Hg & _ & _). exact Hg. }
  intros H. destruct (Hgen l [] H (NoDup_nil _)) as (H1 & H2 & H3).
  split; [exact H1|]. split; [|exact H3].
  intros x. rewrite H2. simpl. split; [intros [[=]|Hx]; auto|auto].
Qed.

Lemma parse_attr_last_value_witness :
  parse_attr [("axes"%string, AInts [1]); ("axes"%string, AInts []); ("mode"%string, AStr "x")]
  = Ok [("axes"%string, AInts [1]); ("mode"%string, AStr "x")] /\
  Dict.get [("axes"%string, AInts [1]); ("mode"%string, AStr "x")] "axes"%string
  = last_attr [("axes"%string, AInts [1]); ("axes"%string, AInts []); ("mode"%string, AStr "x")]
      "axes"%string.
Proof.
  split; [reflexivity|].
  apply (parse_attr_last_value
           [("axes"%string, AInts [1]); ("axes"%string, AInts []); ("mode"%string, AStr "x")]).
  reflexivity.
Defined.

(** ** Pad *)

Lemma combine_seq (bf af : list Z) :
  length bf = length af ->
  map (fun i => (nth i bf 0, nth i af 0)) (seq 0 (length bf)) = combine bf af.
Proof.
  revert af. induction bf as [|b t IH]; intros [|a u] H; simpl in *; try lia; [reflexivity|].
  f_equal. rewrite <- seq_shift, map_map. simpl. apply IH. lia.
Qed.

Lemma map_res_zseq {B} (f : Z -> res B) (g : nat -> B) (a : Z) (k : nat) :
  0 <= a ->
  (forall i, (Z.to_nat a <= i < Z.to_nat a + k)%nat -> f (Z.of_nat i) = Ok (g i)) ->
  map_res f (OnnxInput.zseq a k) = Ok (map g (seq (Z.to_nat a) k)).
Proof.
  revert a. induction k as [|k IH]; intros a Ha H; simpl; [reflexivity|].
  replace (f a) with (f (Z.of_nat (Z.to_nat a))) by (f_equal; lia).
  rewrite H by lia. cbn [rbind]. rewrite IH by (try lia; intros i Hi; apply H; lia).
  replace (Z.to_nat (a + 1)) with (S (Z.to_nat a)) by lia. reflexivity.
Qed.

(** [Pad] (opsets 1 and 2) reads the ONNX pads as all the begin paddings
    followed by all the end paddings: on [begins ++ ends ++ rest] with as
    many begins as ends and at most one extra value, [pad_width] pairs
    the [i]-th begin with the [i]-th end and ignores the extra value. *)
Theorem pad_width_pairs (bf af rest : list Z) :
  length bf = length af -> (length rest <= 1)%nat ->
  pad_width (bf ++ af ++ rest) = Ok (combine bf af).
Proof.
  intros Hl Hr. unfold pad_width. rewrite !length_app.
  replace ((length bf + (length af + length rest)) / 2)%nat with (length bf).
  2:{ apply (Nat.div_unique _ 2 (length bf) (length rest)); lia. }
  rewrite Nat2Z.id. rewrite <- combine_seq by exact Hl.
  apply map_res_zseq; [lia|]. intros i Hi. simpl in Hi.
  rewrite !py_index_nth; rewrite ?length_app; try lia.
  rewrite !Nat2Z.id. replace (Z.to_nat (Z.of_nat i + Z.of_nat (length bf))) with (length bf + i)%nat by lia.
  rewrite app_nth1 by lia. rewrite app_nth2 by lia.
  replace (length bf + i - length bf)%nat with i by lia. rewrite app_nth1 by lia. reflexivity.
Qed.

Lemma pad_width_pairs_witness :
  pad_width [1; 2; 3; 4; 5] = Ok [(1, 3); (2, 4)].
Proof.
  apply (pad_width_pairs [1; 2] [3; 4] [5]); simpl; lia.
Defined.
